(** * Recipe parser: units, quantities, scaling and instruction steps

    A shallow embedding of the recipe parser module (lib/recipe-parser):
    the unit registry, [parseQuantity], [normalizeUnit], [convertQuantity],
    [formatQuantity] / [closestFraction], [scaleRecipe],
    [parseIngredientLine] and [parseInstructions].

    Modelling conventions.
    - A JavaScript string is the list of its UTF-16 code units ([char] is
      [N]); [lit] injects an ASCII literal.
    - A JavaScript [number] is an exact rational ([Q]): the finite values
      with exact arithmetic.  Rounding to binary64, overflow, signed zeros
      and the infinities are not represented.  [NaN] only arises as the
      result of [parseFloat] / [parseInt] and is a constructor of [number].
    - [null] / [undefined] are [None].
    - Objects used as tables are association lists in source order
      (own keys only), since [Object.values] iterates in insertion order. *)

From Stdlib Require Import List ZArith NArith QArith Qround Qabs.
From Stdlib Require Import String Ascii Bool Lia Lqa.
From Stdlib Require Import DecimalString DecimalN DecimalPos.
Import ListNotations.

(* ================================================================== *)
(** ** JavaScript strings *)
(* ================================================================== *)

Module JsString.

Local Open Scope N_scope.

Definition char := N.
Definition jsstring := list char.

(** An ASCII literal as a list of code units. *)
Fixpoint lit (s : string) : jsstring :=
  match s with
  | EmptyString => []
  | String a s' => N_of_ascii a :: lit s'
  end.

(** An ASCII character as a code unit. *)
Definition ch (a : ascii) : char := N_of_ascii a.

Fixpoint str_eqb (a b : jsstring) : bool :=
  match a, b with
  | [], [] => true
  | x :: a', y :: b' => N.eqb x y && str_eqb a' b'
  | _, _ => false
  end.

Definition inRange (lo hi c : char) : bool := (N.leb lo c && N.leb c hi)%bool.

(** [\d] *)
Definition isDigit (c : char) : bool := inRange 48 57 c.

(** [\s], also the set removed by [String.prototype.trim]:
    WhiteSpace and LineTerminator code points. *)
Definition isSpace (c : char) : bool :=
  (inRange 9 13 c || N.eqb c 32 || N.eqb c 160 || N.eqb c 5760
   || inRange 8192 8202 c || N.eqb c 8232 || N.eqb c 8233
   || N.eqb c 8239 || N.eqb c 8287 || N.eqb c 12288 || N.eqb c 65279)%bool.

(** LineTerminator: what [.] does not match. *)
Definition isLineTerminator (c : char) : bool :=
  (N.eqb c 10 || N.eqb c 13 || N.eqb c 8232 || N.eqb c 8233)%bool.

Definition isUpper (c : char) : bool := inRange 65 90 c.
Definition isLower (c : char) : bool := inRange 97 122 c.

(** [toLowerCase] / [toUpperCase] on the ASCII letters; code units
    outside ASCII are left as they are. *)
Definition lowerChar (c : char) : char := if isUpper c then (c + 32)%N else c.
Definition upperChar (c : char) : char := if isLower c then (c - 32)%N else c.
Definition toLowerCase (s : jsstring) : jsstring := map lowerChar s.
Definition toUpperCase (s : jsstring) : jsstring := map upperChar s.

Fixpoint trimStart (s : jsstring) : jsstring :=
  match s with
  | c :: s' => if isSpace c then trimStart s' else s
  | [] => []
  end.

Definition trimEnd (s : jsstring) : jsstring := rev (trimStart (rev s)).

Definition trim (s : jsstring) : jsstring := trimEnd (trimStart s).

(** [s.split(sep)] for a one-character separator: never empty. *)
Fixpoint splitChar (sep : char) (s : jsstring) : list jsstring :=
  match s with
  | [] => [[]]
  | c :: s' =>
      if N.eqb c sep then [] :: splitChar sep s'
      else match splitChar sep s' with
           | p :: ps => (c :: p) :: ps
           | [] => [[c]]
           end
  end.

(** [s.split(/\s+/)]: pieces between maximal runs of whitespace; a
    leading or trailing run leaves an empty first or last piece. *)
Fixpoint splitSpaces (s : jsstring) : list jsstring :=
  match s with
  | [] => [[]]
  | c :: s' =>
      if isSpace c then
        match s' with
        | c' :: _ => if isSpace c' then splitSpaces s' else [] :: splitSpaces s'
        | [] => [[]; []]
        end
      else match splitSpaces s' with
           | p :: ps => (c :: p) :: ps
           | [] => [[c]]
           end
  end.

Definition includes (c : char) (s : jsstring) : bool := existsb (N.eqb c) s.

Definition startsWithChar (c : char) (s : jsstring) : bool :=
  match s with
  | x :: _ => N.eqb x c
  | [] => false
  end.

(** Truthiness of [string | undefined]. *)
Definition truthyStr (o : option jsstring) : bool :=
  match o with
  | Some (_ :: _) => true
  | _ => false
  end.

(** Own-property lookup [o[k]] in a table. *)
Fixpoint lookup {A : Type} (k : jsstring) (o : list (jsstring * A)) : option A :=
  match o with
  | [] => None
  | (k', v) :: o' => if str_eqb k k' then Some v else lookup k o'
  end.

End JsString.
Import JsString.

(* ================================================================== *)
(** ** Regular expressions *)
(* ================================================================== *)

(** A backtracking matcher for the fragment of ECMAScript regular
    expressions the parser uses: character classes, concatenation,
    ordered alternation, greedy and lazy repetition, capture groups and
    the end anchor.  Alternatives and repetitions are explored in the
    order the language prescribes, so the first successful path is the
    match that [String.prototype.match] reports. *)
Module Regex.

Inductive re : Type :=
| Eps
| Chr (p : char -> bool)
| Cat (r1 r2 : re)
| Alt (r1 r2 : re)
| Star (greedy : bool) (r : re)
| Group (n : nat) (r : re)
| Eos.

(** Capture bindings, the most recent first. *)
Definition captures := list (nat * jsstring).

Fixpoint group (n : nat) (caps : captures) : option jsstring :=
  match caps with
  | [] => None
  | (m, s) :: caps' => if Nat.eqb n m then Some s else group n caps'
  end.

Section Matcher.

Context {A : Type}.

Definition cont := jsstring -> captures -> option A.

(** The iterations of a repetition whose body is matched by [body]:
    a greedy one tries one more iteration before it lets [k] go on,
    a lazy one the other way round.  An iteration must consume input,
    so [fuel] set to the length of the input never runs out. *)
Fixpoint iterate (greedy : bool)
  (body : jsstring -> captures -> cont -> option A) (k : cont)
  (fuel : nat) (s : jsstring) (caps : captures) {struct fuel} : option A :=
  match fuel with
  | O => k s caps
  | S fuel' =>
      let again (s' : jsstring) (caps' : captures) :=
        if (List.length s' <? List.length s)%nat
        then iterate greedy body k fuel' s' caps' else None in
      if greedy then
        match body s caps again with
        | Some x => Some x
        | None => k s caps
        end
      else
        match k s caps with
        | Some x => Some x
        | None => body s caps again
        end
  end.

(** [matchFrom r s caps k]: match [r] at the front of [s], then hand
    the rest of the input and the captures to [k]; when [k] fails the
    next way of matching [r] is tried. *)
Fixpoint matchFrom (r : re) (s : jsstring) (caps : captures) (k : cont)
  {struct r} : option A :=
  match r with
  | Eps => k s caps
  | Chr p =>
      match s with
      | c :: s' => if p c then k s' caps else None
      | [] => None
      end
  | Cat r1 r2 =>
      matchFrom r1 s caps (fun s' caps' => matchFrom r2 s' caps' k)
  | Alt r1 r2 =>
      match matchFrom r1 s caps k with
      | Some x => Some x
      | None => matchFrom r2 s caps k
      end
  | Star greedy r' =>
      iterate greedy (matchFrom r') k (List.length s) s caps
  | Group n r' =>
      matchFrom r' s caps
        (fun s' caps' =>
           k s' ((n, firstn (List.length s - List.length s') s) :: caps'))
  | Eos =>
      match s with
      | [] => k s caps
      | _ :: _ => None
      end
  end.

End Matcher.

(** A match anchored at the start ([^]): the rest of the input after
    the match, and the captures. *)
Definition matchStart (r : re) (s : jsstring) : option (jsstring * captures) :=
  matchFrom r s [] (fun s' caps => Some (s', caps)).

(** An unanchored match: the leftmost start index at which the
    expression matches, and the captures. *)
Fixpoint search_from (r : re) (index : nat) (s : jsstring)
  : option (nat * captures) :=
  match matchStart r s with
  | Some (_, caps) => Some (index, caps)
  | None =>
      match s with
      | [] => None
      | _ :: s' => search_from r (S index) s'
      end
  end.

Definition search (r : re) (s : jsstring) : option (nat * captures) :=
  search_from r 0 s.

(** Derived forms. *)
Definition Plus (greedy : bool) (r : re) : re := Cat r (Star greedy r).
Definition Opt (r : re) : re := Alt r Eps.
Definition chr (a : ascii) : re := Chr (N.eqb (ch a)).
(** A literal character under the [i] flag. *)
Definition chri (a : ascii) : re :=
  Chr (fun c => N.eqb (lowerChar c) (lowerChar (ch a))).
Fixpoint stri (s : string) : re :=
  match s with
  | EmptyString => Eps
  | String a EmptyString => chri a
  | String a s' => Cat (chri a) (stri s')
  end.
Definition digit : re := Chr isDigit.
Definition space : re := Chr isSpace.
(** [.] without the [s] flag. *)
Definition dot : re := Chr (fun c => negb (isLineTerminator c)).

End Regex.
Import Regex.

Open Scope Q_scope.

(* ================================================================== *)
(** ** Numbers *)
(* ================================================================== *)

(** The result of [parseFloat] / [parseInt]. *)
Inductive number : Type :=
| NaN
| Num (q : Q).

Definition isNaN (n : number) : bool :=
  match n with NaN => true | Num _ => false end.

(** Truthiness of [number | undefined]: defined and non-zero. *)
Definition truthyNum (o : option Q) : bool :=
  match o with
  | Some m => negb (Qeq_bool m 0)
  | None => false
  end.

(** [o ?? d] *)
Definition nullish {A : Type} (o : option A) (d : A) : A :=
  match o with Some v => v | None => d end.

Definition Qltb (a b : Q) : bool := negb (Qle_bool b a).

(** Longest prefix of decimal digits, and what follows it. *)
Fixpoint spanDigits (s : jsstring) : jsstring * jsstring :=
  match s with
  | c :: s' =>
      if isDigit c then let (ds, rest) := spanDigits s' in (c :: ds, rest)
      else ([], s)
  | [] => ([], [])
  end.

Definition digitVal (c : char) : Z := Z.of_N (c - 48).

(** The mathematical value of a run of decimal digits. *)
Definition digitsValue (ds : jsstring) : Z :=
  fold_left (fun acc c => (10 * acc + digitVal c)%Z) ds 0%Z.

(** An optional sign: whether it is a minus, and what follows it. *)
Definition readSign (s : jsstring) : bool * jsstring :=
  match s with
  | c :: s' =>
      if N.eqb c (ch "-") then (true, s')
      else if N.eqb c (ch "+") then (false, s')
      else (false, s)
  | [] => (false, [])
  end.

(** The ExponentPart of a decimal literal, when one is there. *)
Definition readExponent (s : jsstring) : Z :=
  match s with
  | c :: s' =>
      if (N.eqb c (ch "e") || N.eqb c (ch "E"))%bool then
        let (neg, s'') := readSign s' in
        match spanDigits s'' with
        | ([], _) => 0%Z
        | (ds, _) => if neg then (- digitsValue ds)%Z else digitsValue ds
        end
      else 0%Z
  | [] => 0%Z
  end.

(** [parseFloat]: leading whitespace is skipped and the longest prefix
    that is a decimal literal (sign, digits, fraction, exponent) is read;
    [NaN] when there is none.  The literal [Infinity], which has no finite
    value, is not a decimal literal of this model. *)
Definition parseFloat (input : jsstring) : number :=
  let (neg, s1) := readSign (trimStart input) in
  let (ip, s2) := spanDigits s1 in
  let (fp, s3) :=
    match s2 with
    | c :: r => if N.eqb c (ch ".") then spanDigits r else ([], s2)
    | [] => ([], [])
    end in
  match ip, fp with
  | [], [] => NaN
  | _, _ =>
      let mantissa :=
        inject_Z (digitsValue ip)
        + inject_Z (digitsValue fp) / inject_Z (10 ^ Z.of_nat (List.length fp)) in
      let value := mantissa * Qpower 10 (readExponent s3) in
      Num (if neg then - value else value)
  end.

Definition isHexDigit (c : char) : bool :=
  (isDigit c || inRange 97%N 102%N c || inRange 65%N 70%N c)%bool.

Definition hexVal (c : char) : Z :=
  if isDigit c then Z.of_N (c - 48)
  else if inRange 97%N 102%N c then Z.of_N (c - 87)
  else Z.of_N (c - 55).

Fixpoint spanHex (s : jsstring) : jsstring * jsstring :=
  match s with
  | c :: s' =>
      if isHexDigit c then let (ds, rest) := spanHex s' in (c :: ds, rest)
      else ([], s)
  | [] => ([], [])
  end.

Definition hexValue (ds : jsstring) : Z :=
  fold_left (fun acc c => (16 * acc + hexVal c)%Z) ds 0%Z.

(** [parseInt] without a radix: leading whitespace and a sign are
    skipped, a [0x] prefix selects base 16, and the longest prefix of
    digits is read; [NaN] when there is none. *)
Definition parseInt (input : jsstring) : number :=
  let (neg, s1) := readSign (trimStart input) in
  let signed (z : Z) := Num (inject_Z (if neg then - z else z)) in
  match s1 with
  | z :: x :: s2 =>
      if (N.eqb z (ch "0") && (N.eqb x (ch "x") || N.eqb x (ch "X")))%bool then
        match spanHex s2 with
        | ([], _) => NaN
        | (ds, _) => signed (hexValue ds)
        end
      else
        match spanDigits s1 with
        | ([], _) => NaN
        | (ds, _) => signed (digitsValue ds)
        end
  | _ =>
      match spanDigits s1 with
      | ([], _) => NaN
      | (ds, _) => signed (digitsValue ds)
      end
  end.

(** The decimal digits of a natural number. *)
Definition digitsOf (n : N) : jsstring :=
  lit (NilEmpty.string_of_uint (N.to_uint n)).

(** [Number.prototype.toString] and template interpolation on an
    integer-valued number: plain decimal notation, which is what
    JavaScript prints for magnitudes below 10^21. *)
Definition intToString (z : Z) : jsstring :=
  if (z <? 0)%Z then ch "-" :: digitsOf (Z.to_N (- z)) else digitsOf (Z.to_N z).

(** [Math.floor], [Math.round] (halves go up) and truncation. *)
Definition floor (q : Q) : Z := Qfloor q.
Definition round (q : Q) : Z := Qfloor (q + (1 # 2)).
Definition trunc (q : Q) : Z :=
  if Qle_bool 0 q then Qfloor q else (- Qfloor (- q))%Z.

(** [q % 1]: the remainder has the sign of the dividend. *)
Definition mod1 (q : Q) : Q := q - inject_Z (trunc q).

(** [toFixed(2)]: the magnitude times 100 rounded to the nearest integer,
    the larger one on a tie, written with at least three digits and a
    point before the last two; a minus sign when the number is negative. *)
Definition padLeft3 (ds : jsstring) : jsstring :=
  match ds with
  | [] => lit "000"
  | [a] => ch "0" :: ch "0" :: [a]
  | [a; b] => ch "0" :: [a; b]
  | _ => ds
  end.

Definition toFixed2 (q : Q) : jsstring :=
  let neg := Qltb q 0 in
  let n := Qfloor (Qabs q * 100 + (1 # 2)) in
  let ds := padLeft3 (digitsOf (Z.to_N n)) in
  let k := (List.length ds - 2)%nat in
  (if neg then [ch "-"] else [])
    ++ firstn k ds ++ [ch "."] ++ skipn k ds.

(* ================================================================== *)
(** ** Unit conversion system *)
(* ================================================================== *)

Inductive UnitType : Type := volume | weight | count.

Record UnitConversion : Type := {
  type : UnitType;
  baseUnit : jsstring;
  conversions : list (jsstring * Q)
}.

Definition volumeConversion : UnitConversion := {|
  type := volume;
  baseUnit := lit "ml";
  conversions :=
    [ (lit "ml", 1); (lit "l", 1000); (lit "tsp", 4.92892);
      (lit "tbsp", 14.7868); (lit "cup", 236.588); (lit "fl oz", 29.5735) ]
|}.

Definition weightConversion : UnitConversion := {|
  type := weight;
  baseUnit := lit "g";
  conversions :=
    [ (lit "g", 1); (lit "kg", 1000); (lit "oz", 28.3495); (lit "lb", 453.592) ]
|}.

Definition countConversion : UnitConversion := {|
  type := count;
  baseUnit := lit "count";
  conversions :=
    [ (lit "piece", 1); (lit "pieces", 1); (lit "clove", 1);
      (lit "cloves", 1); (lit "egg", 1); (lit "eggs", 1) ]
|}.

Definition UNIT_CONVERSIONS : list (jsstring * UnitConversion) :=
  [ (lit "ml", volumeConversion);
    (lit "g", weightConversion);
    (lit "count", countConversion) ].

Definition UNIT_ALIASES : list (jsstring * jsstring) :=
  [ (lit "teaspoon", lit "tsp"); (lit "teaspoons", lit "tsp");
    (lit "tablespoon", lit "tbsp"); (lit "tablespoons", lit "tbsp");
    (lit "tbsps", lit "tbsp");
    (lit "cup", lit "cup"); (lit "cups", lit "cup");
    (lit "ounce", lit "oz"); (lit "ounces", lit "oz");
    (lit "pound", lit "lb"); (lit "pounds", lit "lb");
    (lit "milliliter", lit "ml"); (lit "milliliters", lit "ml");
    (lit "liter", lit "l"); (lit "liters", lit "l");
    (lit "gram", lit "g"); (lit "grams", lit "g");
    (lit "kilogram", lit "kg"); (lit "kilograms", lit "kg");
    (lit "fl oz", lit "fl oz"); (lit "fluid ounce", lit "fl oz");
    (lit "fluid ounces", lit "fl oz") ].

(** [Object.values(UNIT_CONVERSIONS)] *)
Definition unitDefinitions : list UnitConversion := map snd UNIT_CONVERSIONS.

(** The loop of [normalizeUnit]: the first definition that lists [lower]. *)
Fixpoint normalizeUnit_loop (lower : jsstring) (defs : list UnitConversion)
  : option jsstring :=
  match defs with
  | [] => None
  | conversion :: defs' =>
      if truthyNum (lookup lower (conversions conversion)) then Some lower
      else normalizeUnit_loop lower defs'
  end.

(** [normalizeUnit]: the alias table first, then the canonical names of
    the definitions.  Only the tables' own keys are looked up; what a
    JavaScript object inherits from its prototype is not part of them. *)
Definition normalizeUnit (unitStr : jsstring) : option jsstring :=
  let lower := trim (toLowerCase unitStr) in
  if truthyStr (lookup lower UNIT_ALIASES) then lookup lower UNIT_ALIASES
  else normalizeUnit_loop lower unitDefinitions.

(** [getUnitType]: the type of the first definition that lists the unit,
    [count] when none does. *)
Fixpoint getUnitType_loop (unit : jsstring) (defs : list UnitConversion)
  : UnitType :=
  match defs with
  | [] => count
  | conversion :: defs' =>
      if truthyNum (lookup unit (conversions conversion)) then type conversion
      else getUnitType_loop unit defs'
  end.

Definition getUnitType (unit : jsstring) : UnitType :=
  getUnitType_loop unit unitDefinitions.

(* ================================================================== *)
(** ** Unit conversion *)
(* ================================================================== *)

Record ConversionResult : Type := {
  cr_quantity : Q;
  cr_unit : jsstring;
  cr_baseQuantity : Q;
  cr_baseUnit : jsstring
}.

(** One pass of the group-finding loop: both variables are overwritten by
    every definition that lists the unit, so the last one wins. *)
Definition findGroups_step (normalizedFrom normalizedTo : jsstring)
  (st : option UnitConversion * option UnitConversion)
  (conversion : UnitConversion)
  : option UnitConversion * option UnitConversion :=
  let fromGroup :=
    if truthyNum (lookup normalizedFrom (conversions conversion))
    then Some conversion else fst st in
  let toGroup :=
    if truthyNum (lookup normalizedTo (conversions conversion))
    then Some conversion else snd st in
  (fromGroup, toGroup).

Definition findGroups (normalizedFrom normalizedTo : jsstring)
  : option UnitConversion * option UnitConversion :=
  fold_left (findGroups_step normalizedFrom normalizedTo)
            unitDefinitions (None, None).

(** [convertQuantity]: through the base unit of the common definition. *)
Definition convertQuantity (quantity : Q) (fromUnit toUnit : jsstring)
  : option ConversionResult :=
  let normalizedFrom := normalizeUnit fromUnit in
  let normalizedTo := normalizeUnit toUnit in
  if (negb (truthyStr normalizedFrom) || negb (truthyStr normalizedTo))%bool
  then None
  else
    match normalizedFrom, normalizedTo with
    | Some nFrom, Some nTo =>
        match findGroups nFrom nTo with
        | (Some fromGroup, Some toGroup) =>
            if negb (str_eqb (baseUnit fromGroup) (baseUnit toGroup)) then None
            else
              let toBaseMultiplier :=
                nullish (lookup nFrom (conversions fromGroup)) 1 in
              let fromBaseMultiplier :=
                nullish (lookup nTo (conversions toGroup)) 1 in
              let baseQuantity := quantity * toBaseMultiplier in
              let resultQuantity := baseQuantity / fromBaseMultiplier in
              Some {| cr_quantity := resultQuantity;
                      cr_unit := nTo;
                      cr_baseQuantity := baseQuantity;
                      cr_baseUnit := baseUnit fromGroup |}
        | _ => None
        end
    | _, _ => None
    end.

(* ================================================================== *)
(** ** Parsed ingredients and quantities *)
(* ================================================================== *)

Record ParsedIngredient : Type := {
  original : jsstring;
  quantity : Q;
  unit : jsstring;
  unitType : UnitType;
  ingredient : jsstring;
  notes : option jsstring
}.

(** [parts[i] ? parseFloat(parts[i]) : NaN] *)
Definition fractionTerm (fractionParts : list jsstring) (i : nat) : number :=
  if truthyStr (nth_error fractionParts i)
  then parseFloat (nth i fractionParts [])
  else NaN.

(** The [for ... of parts] loop of [parseQuantity], with its running
    [total], and the final test once the parts are exhausted. *)
Fixpoint parseQuantity_loop (parts : list jsstring) (total : Q) : option Q :=
  match parts with
  | [] => if Qltb 0 total then Some total else None
  | part :: parts' =>
      if includes (ch "/") part then
        let fractionParts := splitChar (ch "/") part in
        match fractionTerm fractionParts 0, fractionTerm fractionParts 1 with
        | Num numerator, Num denominator =>
            if Qeq_bool denominator 0 then None
            else parseQuantity_loop parts' (total + numerator / denominator)
        | _, _ => None
        end
      else
        match parseFloat part with
        | NaN => None
        | Num num => parseQuantity_loop parts' (total + num)
        end
  end.

(** [parseQuantity]: the parts of [quantityStr.split(/\s+/)], summed. *)
Definition parseQuantity (quantityStr : jsstring) : option Q :=
  parseQuantity_loop (splitSpaces quantityStr) 0.

(* ================================================================== *)
(** ** Quantity formatting *)
(* ================================================================== *)

Record Fraction : Type := {
  whole : Z;
  numerator : Z;
  denominator : Z;
  error : Q
}.

Definition maxDenominator : nat := 16.

(** The loop variables [bestNumerator], [bestDenominator], [bestError]. *)
Record Best : Type := {
  bestNumerator : Z;
  bestDenominator : Z;
  bestError : Q
}.

(** One iteration of the denominator search. *)
Definition closestFraction_step (remainder : Q) (best : Best) (d : Z) : Best :=
  let n := round (remainder * inject_Z d) in
  let value := inject_Z n / inject_Z d in
  let err := Qabs (value - remainder) in
  if Qltb err (bestError best)
  then {| bestNumerator := n; bestDenominator := d; bestError := err |}
  else best.

(** The denominators [1 .. maxDenominator], ascending. *)
Definition denominators : list Z := map Z.of_nat (seq 1 maxDenominator).

Definition closestFraction_search (remainder : Q) : Best :=
  fold_left (closestFraction_step remainder) denominators
            {| bestNumerator := 0; bestDenominator := 1; bestError := 1 |}.

(** [closestFraction]: declared to return an object or [null]; every
    path returns an object. *)
Definition closestFraction (decimal : Q) : option Fraction :=
  let w := floor decimal in
  let remainder := decimal - inject_Z w in
  let best := closestFraction_search remainder in
  if (bestNumerator best =? bestDenominator best)%Z then
    Some {| whole := w + 1; numerator := 1; denominator := 1; error := 0 |}
  else
    Some {| whole := w;
            numerator := bestNumerator best;
            denominator := bestDenominator best;
            error := bestError best |}.

(** [formatQuantity]: a whole quantity is printed by [toString]; else
    the closest fraction when its error is below 0.01, else two
    decimals. *)
Definition formatQuantity (quantity : Q) : jsstring :=
  if Qeq_bool (mod1 quantity) 0 then intToString (trunc quantity)
  else
    match closestFraction quantity with
    | Some fractionMatch =>
        if Qltb (error fractionMatch) 0.01 then
          if (0 <? whole fractionMatch)%Z then
            intToString (whole fractionMatch) ++ lit " "
              ++ intToString (numerator fractionMatch) ++ lit "/"
              ++ intToString (denominator fractionMatch)
          else
            intToString (numerator fractionMatch) ++ lit "/"
              ++ intToString (denominator fractionMatch)
        else toFixed2 quantity
    | None => toFixed2 quantity
    end.

(* ================================================================== *)
(** ** Recipe scaling *)
(* ================================================================== *)

(** [ScaledIngredient extends ParsedIngredient]: the spread copy of the
    parsed ingredient, and the three added fields. *)
Record ScaledIngredient : Type := {
  parsed : ParsedIngredient;
  scaledQuantity : Q;
  scaledUnit : jsstring;
  displayQuantity : jsstring
}.

(** [scaleRecipe]: one scale factor, one output per ingredient. *)
Definition scaleRecipe (ingredients : list ParsedIngredient)
  (originalServings desiredServings : Q) : list ScaledIngredient :=
  let scaleFactor := desiredServings / originalServings in
  map (fun ingredient =>
         let scaledQuantity := quantity ingredient * scaleFactor in
         {| parsed := ingredient;
            scaledQuantity := scaledQuantity;
            scaledUnit := unit ingredient;
            displayQuantity := formatQuantity scaledQuantity |})
      ingredients.

(* ================================================================== *)
(** ** Ingredient parser *)
(* ================================================================== *)

(** [/^[-•]\s*/] *)
Definition bulletRe : re :=
  Cat (Chr (fun c => (N.eqb c (ch "-") || N.eqb c 8226)%bool))
      (Star true space).

(** [/\(([^)]+)\)$/] *)
Definition notesRe : re :=
  Cat (chr "(")
   (Cat (Group 1 (Plus true (Chr (fun c => negb (N.eqb c (ch ")"))))))
    (Cat (chr ")") Eos)).

(** [/^([\d.]+(?:\s+\d+\/\d+)?|\d+\/\d+)\s+([a-z\s]+?)(?:\s+(.+))?$/i] *)
Definition quantityRe : re :=
  Cat (Group 1
         (Alt (Cat (Plus true (Chr (fun c => (isDigit c || N.eqb c (ch "."))%bool)))
                   (Opt (Cat (Plus true space)
                          (Cat (Plus true digit)
                            (Cat (chr "/") (Plus true digit))))))
              (Cat (Plus true digit) (Cat (chr "/") (Plus true digit)))))
   (Cat (Plus true space)
    (Cat (Group 2
            (Plus false
               (Chr (fun c => (isLower c || isUpper c || isSpace c)%bool))))
     (Cat (Opt (Cat (Plus true space) (Group 3 (Plus true dot))))
          Eos))).

(** [g?.trim() || fallback] on an optional capture. *)
Definition trimmedOr (g : option jsstring) (fallback : jsstring) : jsstring :=
  match g with
  | Some s => match trim s with [] => fallback | t => t end
  | None => fallback
  end.

(** [parseIngredientLine]: bullet, trailing notes, then quantity, unit
    and ingredient name. *)
Definition parseIngredientLine (line : jsstring) : option ParsedIngredient :=
  let trimmed := trim line in
  let cleaned :=
    trim (match matchStart bulletRe trimmed with
          | Some (rest, _) => rest
          | None => trimmed
          end) in
  let (notes, textWithoutNotes) :=
    match search notesRe cleaned with
    | Some (index, caps) => (group 1 caps, trim (firstn index cleaned))
    | None => (None, cleaned)
    end in
  match matchStart quantityRe textWithoutNotes with
  | None => None
  | Some (_, quantityMatch) =>
      let quantityStr := group 1 quantityMatch in
      let unitStr := trimmedOr (group 2 quantityMatch) [] in
      let ingredientStr := trimmedOr (group 3 quantityMatch) unitStr in
      match parseQuantity (nullish quantityStr []) with
      | None => None
      | Some quantity =>
          let normalizedUnit := normalizeUnit unitStr in
          if negb (truthyStr normalizedUnit) then None
          else
            let normalizedUnit := nullish normalizedUnit [] in
            Some {| original := trimmed;
                    quantity := quantity;
                    unit := normalizedUnit;
                    unitType := getUnitType normalizedUnit;
                    ingredient := ingredientStr;
                    notes := notes |}
      end
  end.

(** A line the batch parsers skip: blank, or a heading. *)
Definition skippedLine (line : jsstring) : bool :=
  match trim line with
  | [] => true
  | t => startsWithChar (ch "#") t
  end.

(** [parseIngredients]: the lines that parse, in order. *)
Definition parseIngredients (text : jsstring) : list ParsedIngredient :=
  fold_left
    (fun ingredients line =>
       if skippedLine line then ingredients
       else match parseIngredientLine line with
            | Some parsed => ingredients ++ [parsed]
            | None => ingredients
            end)
    (splitChar 10%N text) [].

(* ================================================================== *)
(** ** Instruction parser *)
(* ================================================================== *)

Record Temperature : Type := {
  temp_value : number;
  temp_unit : jsstring
}.

Record Duration : Type := {
  time_value : number;
  time_unit : jsstring
}.

Record ParsedInstruction : Type := {
  stepNumber : number;
  text : jsstring;
  temperature : option Temperature;
  time : option Duration
}.

(** [/^(\d+)\.\s+(.+)$/] *)
Definition stepRe : re :=
  Cat (Group 1 (Plus true digit))
   (Cat (chr ".")
    (Cat (Plus true space)
     (Cat (Group 2 (Plus true dot)) Eos))).

(** [/(\d+)°?([FC])/i] *)
Definition tempRe : re :=
  Cat (Group 1 (Plus true digit))
   (Cat (Opt (Chr (N.eqb 176)))
        (Group 2 (Alt (chri "F") (chri "C")))).

(** [/(\d+(?:\s*-\s*\d+)?)\s*(minute|min|second|sec|hour|hr)s?/i] *)
Definition timeRe : re :=
  Cat (Group 1
         (Cat (Plus true digit)
              (Opt (Cat (Star true space)
                     (Cat (chr "-")
                       (Cat (Star true space) (Plus true digit)))))))
   (Cat (Star true space)
    (Cat (Group 2
            (Alt (stri "minute")
              (Alt (stri "min")
                (Alt (stri "second")
                  (Alt (stri "sec")
                    (Alt (stri "hour") (stri "hr")))))))
         (Opt (chri "s")))).

Definition extractTemperature (instructionText : jsstring) : option Temperature :=
  match search tempRe instructionText with
  | Some (_, tempMatch) =>
      Some {| temp_value := parseInt (nullish (group 1 tempMatch) (lit "0"));
              temp_unit := toUpperCase (nullish (group 2 tempMatch) (lit "F")) |}
  | None => None
  end.

Definition extractTime (instructionText : jsstring) : option Duration :=
  match search timeRe instructionText with
  | Some (_, timeMatch) =>
      Some {| time_value := parseInt (nullish (group 1 timeMatch) (lit "0"));
              time_unit := toLowerCase (nullish (group 2 timeMatch) (lit "minute")) |}
  | None => None
  end.

(** The body of the [for ... of lines] loop: the state is the array built
    so far and the [stepNumber] variable. *)
Definition parseInstructions_step
  (st : list ParsedInstruction * number) (line : jsstring)
  : list ParsedInstruction * number :=
  let (instructions, stepNumber) := st in
  let trimmed := trim line in
  if skippedLine line then st
  else
    match matchStart stepRe trimmed with
    | Some (_, stepMatch) =>
        let stepStr := nullish (group 1 stepMatch) (lit "0") in
        let instructionText := nullish (group 2 stepMatch) [] in
        let stepNumber := parseInt stepStr in
        (instructions ++
           [ {| stepNumber := stepNumber;
                text := instructionText;
                temperature := extractTemperature instructionText;
                time := extractTime instructionText |} ],
         stepNumber)
    | None => st
    end.

(** [parseInstructions]: the array after the last line. *)
Definition parseInstructions (text : jsstring) : list ParsedInstruction :=
  fst (fold_left parseInstructions_step (splitChar 10%N text) ([], Num 0)).

(* ================================================================== *)
(** * Specification vocabulary *)
(* ================================================================== *)

(** The predicates and auxiliary functions the properties below are
    stated with. *)

Definition multipliersPositive (d : UnitConversion) : Prop :=
  Forall (fun kv => 0 < snd kv) (conversions d).

Definition baseMapsToOne (d : UnitConversion) : Prop :=
  exists m, lookup (baseUnit d) (conversions d) = Some m /\ m == 1.

(** [d] lists the unit [u]: it is [u]'s owning definition. *)
Definition owns (d : UnitConversion) (u : jsstring) : Prop :=
  In d unitDefinitions /\ truthyNum (lookup u (conversions d)) = true.

(** The definition the group loop of [convertQuantity] ends with. *)
Definition lastOwner (u : jsstring) : option UnitConversion :=
  fold_left
    (fun g d => if truthyNum (lookup u (conversions d)) then Some d else g)
    unitDefinitions None.

(** The registry invariant as the specification words it, for a single
    definition. *)
Definition registryInvariant (d : UnitConversion) : Prop :=
  multipliersPositive d /\ baseMapsToOne d.

Definition tolerance : Q := 1 # 1000000.

(** Conversion into the base unit as the specification words it, for a
    single definition: every listed unit converts into the definition's
    base unit name, and the result is the quantity times the
    multiplier, within the tolerance. *)
Definition convertsToBase (d : UnitConversion) : Prop :=
  forall (u : jsstring) (m x : Q),
    In (u, m) (conversions d) ->
    exists r, convertQuantity x u (baseUnit d) = Some r
              /\ Qabs (cr_quantity r - x * m) <= tolerance.

Definition flourExample : ParsedIngredient := {|
  original := lit "2 1/4 cups all-purpose flour";
  quantity := 9 # 4;
  unit := lit "cup";
  unitType := volume;
  ingredient := lit "all-purpose flour";
  notes := None
|}.

Definition allDigits (s : jsstring) : Prop := Forall (fun c => isDigit c = true) s.

(** Formatting a whole number and parsing it back gives the number. *)
Definition roundTrips (n : Z) : Prop :=
  exists q, parseQuantity (formatQuantity (inject_Z n)) = Some q
            /\ q == inject_Z n.

(** The error of the candidate the search builds for denominator [d]. *)
Definition candidateError (remainder : Q) (d : Z) : Q :=
  Qabs (inject_Z (round (remainder * inject_Z d)) / inject_Z d - remainder).

Definition boundedBest (b : Best) : Prop :=
  (0 <= bestNumerator b)%Z /\ (1 <= bestDenominator b <= 16)%Z.

(** Two states of the search that differ at most in how the error is
    written as a fraction. *)
Definition sameBest (b b' : Best) : Prop :=
  bestNumerator b = bestNumerator b'
  /\ bestDenominator b = bestDenominator b'
  /\ bestError b == bestError b'.

(** The fractional remainder [v - Math.floor(v)]. *)
Definition remainderOf (v : Q) : Q := v - inject_Z (floor v).

(** The description of [parseQuantity], in its own words: the token is
    cut into whitespace-separated parts; a part with a slash is a
    fraction [a/b], [a] being the text before the first slash and [b] the
    text after it (up to a further slash); a text is numeric when
    [parseFloat] reads a number from it. *)
Fixpoint beforeChar (c : char) (s : jsstring) : jsstring :=
  match s with
  | [] => []
  | x :: s' => if N.eqb x c then [] else x :: beforeChar c s'
  end.

Fixpoint afterChar (c : char) (s : jsstring) : jsstring :=
  match s with
  | [] => []
  | x :: s' => if N.eqb x c then s' else afterChar c s'
  end.

Definition isFractionPart (part : jsstring) : bool := includes (ch "/") part.
Definition numeratorText (part : jsstring) : jsstring := beforeChar (ch "/") part.
Definition denominatorText (part : jsstring) : jsstring :=
  beforeChar (ch "/") (afterChar (ch "/") part).

Definition numericPart (part : jsstring) : Prop :=
  if isFractionPart part
  then exists a b, parseFloat (numeratorText part) = Num a
                   /\ parseFloat (denominatorText part) = Num b
  else exists q, parseFloat part = Num q.

Definition nonNumericPart (part : jsstring) : Prop := ~ numericPart part.

Definition zeroDenominatorPart (part : jsstring) : Prop :=
  isFractionPart part = true
  /\ exists b, parseFloat (denominatorText part) = Num b /\ b == 0.

Definition valueOf (n : number) : Q :=
  match n with Num q => q | NaN => 0 end.

(** What a part contributes to the sum: [a / b] for a fraction. *)
Definition partContribution (part : jsstring) : Q :=
  if isFractionPart part
  then valueOf (parseFloat (numeratorText part))
       / valueOf (parseFloat (denominatorText part))
  else valueOf (parseFloat part).

Definition partsTotal (parts : list jsstring) : Q :=
  fold_right (fun part t => partContribution part + t) 0 parts.

(** The token is rejected by the description. *)
Definition rejectedToken (token : jsstring) : Prop :=
  Exists nonNumericPart (splitSpaces token)
  \/ Exists zeroDenominatorPart (splitSpaces token)
  \/ ~ 0 < partsTotal (splitSpaces token).

(** The strict reading of "numeric": the whole part is a decimal literal
    (digits with at most one point) or a fraction of two decimal
    literals. *)
Definition isDecimalLiteral (s : jsstring) : bool :=
  let (ip, rest) := spanDigits s in
  match rest with
  | [] => match ip with [] => false | _ => true end
  | c :: rest' =>
      let (fp, rest'') := spanDigits rest' in
      (N.eqb c (ch ".")
       && match rest'' with [] => true | _ => false end
       && match ip, fp with [], [] => false | _, _ => true end)%bool
  end.

Definition strictlyNumericPart (part : jsstring) : bool :=
  if isFractionPart part
  then (isDecimalLiteral (numeratorText part)
        && isDecimalLiteral (afterChar (ch "/") part))%bool
  else isDecimalLiteral part.




(** What one line adds to the array. *)
Definition lineRecords (line : jsstring) : list ParsedInstruction :=
  fst (parseInstructions_step ([], Num 0) line).

Definition degreeSign : char := 176%N.


(** The search after the denominators [1 .. k]. *)
Definition searchUpTo (remainder : Q) (k : nat) : Best :=
  fold_left (closestFraction_step remainder) (map Z.of_nat (seq 1 k))
            {| bestNumerator := 0; bestDenominator := 1; bestError := 1 |}.

(** What the search has achieved after the denominators [1 .. k]: a
    proper or whole candidate in lowest terms whose error is the least
    among the candidates seen. *)
Definition searchInvariant (r : Q) (k : nat) (b : Best) : Prop :=
  (0 <= bestNumerator b <= bestDenominator b)%Z
  /\ (1 <= bestDenominator b <= Z.max 1 (Z.of_nat k))%Z
  /\ Z.gcd (bestNumerator b) (bestDenominator b) = 1%Z
  /\ (forall d, (1 <= d <= Z.of_nat k)%Z -> bestError b <= candidateError r d)
  /\ ((1 <= k)%nat ->
      bestError b
      == Qabs (inject_Z (bestNumerator b) / inject_Z (bestDenominator b) - r))
  /\ bestError b <= 1.

(** The fraction template of [formatQuantity]. *)
Definition renderFraction (w n d : Z) : jsstring :=
  if (0 <? w)%Z
  then intToString w ++ lit " " ++ intToString n ++ lit "/" ++ intToString d
  else intToString n ++ lit "/" ++ intToString d.

(** The all-lower-case names that every JavaScript object inherits from
    [Object.prototype].  The tables of this development hold their own
    keys; what is stated about a lookup with an arbitrary string leaves
    these names out. *)
Definition inheritedNames : list jsstring :=
  [lit "constructor"; lit "__proto__"].

(** The key [normalizeUnit] looks up for [s] is not an inherited name. *)
Definition ownName (s : jsstring) : bool :=
  negb (existsb (str_eqb (trim (toLowerCase s))) inheritedNames).

(** [s.startsWith(w)] and [s.includes(w)]. *)
Fixpoint startsWith (w s : jsstring) : bool :=
  match w, s with
  | [], _ => true
  | a :: w', b :: s' => (N.eqb a b && startsWith w' s')%bool
  | _ :: _, [] => false
  end.

Fixpoint includesStr (w s : jsstring) : bool :=
  (startsWith w s
   || match s with
      | [] => false
      | _ :: s' => includesStr w s'
      end)%bool.

(** [cleaned] and the pair [notes], [textWithoutNotes] of
    [parseIngredientLine]. *)
Definition cleanedLine (line : jsstring) : jsstring :=
  trim (match matchStart bulletRe (trim line) with
        | Some (rest, _) => rest
        | None => trim line
        end).

Definition notesSplit (cleaned : jsstring) : option jsstring * jsstring :=
  match search notesRe cleaned with
  | Some (index, caps) => (group 1 caps, trim (firstn index cleaned))
  | None => (None, cleaned)
  end.

(** The characters a line that parses can begin with: a digit, a
    point, a dash or a bullet. *)
Definition quantityStart (c : char) : bool :=
  (isDigit c || N.eqb c (ch ".") || N.eqb c (ch "-") || N.eqb c 8226)%bool.

(** What one line adds to the array of [parseIngredients]. *)
Definition lineIngredients (line : jsstring) : list ParsedIngredient :=
  match parseIngredientLine line with
  | Some parsed => [parsed]
  | None => []
  end.

(** What a successful match consumed and captured: [Matches r w rest
    caps caps'] says that the expression [r] matches the word [w] when
    [rest] is what follows it in the input, and takes the capture
    bindings [caps] to [caps']. *)
Inductive Matches : re -> jsstring -> jsstring -> captures -> captures -> Prop :=
| M_Eps rest caps : Matches Eps [] rest caps caps
| M_Chr p c rest caps : p c = true -> Matches (Chr p) [c] rest caps caps
| M_Cat r1 r2 w1 w2 rest caps caps1 caps2 :
    Matches r1 w1 (w2 ++ rest) caps caps1 ->
    Matches r2 w2 rest caps1 caps2 ->
    Matches (Cat r1 r2) (w1 ++ w2) rest caps caps2
| M_AltL r1 r2 w rest caps caps' :
    Matches r1 w rest caps caps' -> Matches (Alt r1 r2) w rest caps caps'
| M_AltR r1 r2 w rest caps caps' :
    Matches r2 w rest caps caps' -> Matches (Alt r1 r2) w rest caps caps'
| M_StarNil g r rest caps : Matches (Star g r) [] rest caps caps
| M_StarCons g r w1 w2 rest caps caps1 caps2 :
    w1 <> [] ->
    Matches r w1 (w2 ++ rest) caps caps1 ->
    Matches (Star g r) w2 rest caps1 caps2 ->
    Matches (Star g r) (w1 ++ w2) rest caps caps2
| M_Group n r w rest caps caps' :
    Matches r w rest caps caps' ->
    Matches (Group n r) w rest caps ((n, w) :: caps')
| M_Eos caps : Matches Eos [] [] caps caps.

(** The unit words of the time pattern. *)
Definition timeUnits : list jsstring :=
  [lit "minute"; lit "min"; lit "second"; lit "sec"; lit "hour"; lit "hr"].

(** A string that does not go on with a digit. *)
Definition noDigitAhead (s : jsstring) : Prop :=
  match s with
  | [] => True
  | c :: _ => isDigit c = false
  end.

(** The characters between the first number of a duration and its unit
    word: whitespace, and the dash and digits of a range. *)
Definition rangeChar (c : char) : bool :=
  (isDigit c || isSpace c || N.eqb c (ch "-"))%bool.

(** A result of the matcher comes with a word the expression matches. *)
Definition soundFor {A : Type} (r : re) : Prop :=
  forall (s : jsstring) (caps : captures) (k : @cont A) (x : A),
    matchFrom r s caps k = Some x ->
    exists w rest caps',
      s = w ++ rest /\ Matches r w rest caps caps' /\ k rest caps' = Some x.

(* ================================================================== *)
(** * Properties *)
(* ================================================================== *)

(** ** Strings and tables *)

Lemma str_eqb_eq (a b : jsstring) : str_eqb a b = true <-> a = b.
Proof.
  revert b; induction a as [|x a IH]; intros [|y b]; simpl;
    try (split; [discriminate | congruence]); [tauto|].
  rewrite andb_true_iff, N.eqb_eq, IH; split.
  - intros [-> ->]; reflexivity.
  - intros E; injection E; auto.
Qed.

Lemma str_eqb_refl (a : jsstring) : str_eqb a a = true.
Proof. apply str_eqb_eq; reflexivity. Qed.

Lemma str_eqb_neq (a b : jsstring) : a <> b -> str_eqb a b = false.
Proof.
  intros N; destruct (str_eqb a b) eqn:E; [|reflexivity].
  apply str_eqb_eq in E; contradiction.
Qed.

(** A key with a truthy value is one of the table's keys. *)
Lemma truthy_lookup_In (k : jsstring) (tbl : list (jsstring * Q)) :
  truthyNum (lookup k tbl) = true -> In k (map fst tbl).
Proof.
  induction tbl as [|[k' v] tbl IH]; simpl; [discriminate|].
  destruct (str_eqb k k') eqn:E.
  - apply str_eqb_eq in E; auto.
  - auto.
Qed.

(** ** The unit registry *)

Lemma findGroups_lastOwner (nFrom nTo : jsstring) :
  findGroups nFrom nTo = (lastOwner nFrom, lastOwner nTo).
Proof.
  unfold findGroups, lastOwner.
  generalize (@None UnitConversion) at 1 3.
  generalize (@None UnitConversion).
  induction unitDefinitions as [|d ds IH]; intros g1 g2; simpl; [reflexivity|].
  unfold findGroups_step at 2; simpl. apply IH.
Qed.

Ltac registry_cases H :=
  repeat (destruct H as [H|H]; [subst|]); try contradiction.

(** Membership in a literal list. *)
Ltac in_list := repeat (first [left; reflexivity | right]).

(** No unit is listed by two definitions, and every listed unit is a
    non-empty string that [normalizeUnit] maps to itself. *)
Lemma owns_lastOwner (d : UnitConversion) (u : jsstring) :
  owns d u -> lastOwner u = Some d /\ u <> [] /\ normalizeUnit u = Some u.
Proof.
  intros [Hd Hu]. apply truthy_lookup_In in Hu.
  simpl in Hd. registry_cases Hd; simpl in Hu; registry_cases Hu;
    (split; [reflexivity | split; [discriminate | reflexivity]]).
Qed.

(** Whatever [normalizeUnit] returns and some definition lists is
    returned unchanged by the lookups of [convertQuantity]. *)
Lemma convertQuantity_owned (x : Q) (f t nf nt : jsstring)
  (gf gt : UnitConversion) :
  normalizeUnit f = Some nf -> normalizeUnit t = Some nt ->
  owns gf nf -> owns gt nt ->
  convertQuantity x f t =
    if negb (str_eqb (baseUnit gf) (baseUnit gt)) then None
    else Some {| cr_quantity :=
                   x * nullish (lookup nf (conversions gf)) 1
                     / nullish (lookup nt (conversions gt)) 1;
                 cr_unit := nt;
                 cr_baseQuantity := x * nullish (lookup nf (conversions gf)) 1;
                 cr_baseUnit := baseUnit gf |}.
Proof.
  intros Hf Ht Of Ot.
  destruct (@owns_lastOwner _ _ Of) as (Lf & Nf & _).
  destruct (@owns_lastOwner _ _ Ot) as (Lt & Nt & _).
  unfold convertQuantity. rewrite Hf, Ht.
  destruct nf as [|c nf]; [congruence|].
  destruct nt as [|c' nt]; [congruence|].
  simpl truthyStr. simpl negb. simpl orb. cbv iota.
  rewrite findGroups_lastOwner, Lf, Lt. reflexivity.
Qed.

(** C2 (counterexample).  The count definition names its base unit
    ["count"], which is not a key of its own conversions table, so the
    invariant "the base unit maps to 1" fails for it. *)
Lemma count_base_unit_not_listed :
  In countConversion unitDefinitions /\ ~ registryInvariant countConversion.
Proof.
  split; [in_list|].
  intros [_ [m [H _]]]. vm_compute in H. discriminate.
Qed.

(** C2 (amended).  In every definition of the registry all multipliers
    are strictly positive; the volume and weight definitions list their
    base unit with multiplier exactly 1; the count definition does not
    list its base unit name ["count"], and each unit it lists has
    multiplier 1. *)
Theorem registry_invariant :
  Forall (fun d =>
            multipliersPositive d
            /\ (type d <> count -> baseMapsToOne d)
            /\ (type d = count ->
                lookup (baseUnit d) (conversions d) = None
                /\ Forall (fun kv => snd kv == 1) (conversions d)))
         unitDefinitions.
Proof.
  unfold unitDefinitions; simpl.
  repeat constructor; try reflexivity; try discriminate;
    try (intros _; exists 1; split; reflexivity);
    try (intros E; discriminate E);
    try (intros E; exfalso; apply E; reflexivity).
Qed.

(** ** Conversions *)

Lemma listed_owns (d : UnitConversion) (u : jsstring) (m : Q) :
  In d unitDefinitions -> In (u, m) (conversions d) ->
  owns d u /\ lookup u (conversions d) = Some m.
Proof.
  intros Hd Hu. simpl in Hd.
  registry_cases Hd; simpl in Hu; registry_cases Hu;
    injection Hu as <- <-; (split; [split; [in_list|]|]); reflexivity.
Qed.

(** C1 (counterexample).  ["egg"] is listed by the count definition with
    multiplier 1, yet converting one egg into the base unit name
    ["count"] fails: ["count"] is not a unit [normalizeUnit] knows. *)
Lemma convert_to_count_fails :
  In countConversion unitDefinitions /\ ~ convertsToBase countConversion.
Proof.
  split; [in_list|].
  intros H. destruct (H (lit "egg") 1 1) as [r [Hr _]]; [in_list|].
  vm_compute in Hr. discriminate.
Qed.

(** C1 (amended).  For every unit [u] listed with multiplier [m] by the
    volume or the weight definition and every quantity [x],
    [convertQuantity x u base] succeeds with [base] the definition's base
    unit (["ml"], ["g"]); the resulting quantity is [x * m] (so within
    the tolerance), the unit is [base] and the base quantity is [x * m]
    as well.  For a unit of the count definition the conversion into
    ["count"] returns nothing. *)
Theorem convertQuantity_to_base (d : UnitConversion) (u : jsstring) (m x : Q) :
  In d unitDefinitions -> In (u, m) (conversions d) ->
  (type d <> count ->
   exists r, convertQuantity x u (baseUnit d) = Some r
             /\ cr_quantity r == x * m
             /\ Qabs (cr_quantity r - x * m) <= tolerance
             /\ cr_unit r = baseUnit d
             /\ cr_baseQuantity r == x * m
             /\ cr_baseUnit r = baseUnit d)
  /\ (type d = count -> convertQuantity x u (baseUnit d) = None).
Proof.
  intros Hd Hu. destruct (@listed_owns d u m Hd Hu) as [Ou Lu].
  destruct (@owns_lastOwner _ _ Ou) as (_ & _ & Nu).
  split; intros Ht.
  - assert (Ob : owns d (baseUnit d) /\ lookup (baseUnit d) (conversions d) = Some 1).
    { simpl in Hd. registry_cases Hd; try (exfalso; apply Ht; reflexivity);
        (split; [split; [in_list|]|]); reflexivity. }
    destruct Ob as [Ob Lb]. destruct (@owns_lastOwner _ _ Ob) as (_ & _ & Nb).
    rewrite (@convertQuantity_owned x _ _ _ _ _ _ Nu Nb Ou Ob), str_eqb_refl, Lu, Lb.
    simpl negb. cbv iota. eexists; split; [reflexivity|].
    cbn [cr_quantity cr_unit cr_baseQuantity cr_baseUnit nullish].
    assert (E : x * m / 1 == x * m) by (field).
    repeat split; try assumption; try reflexivity.
    assert (E0 : x * m / 1 - x * m == 0) by (rewrite E; ring).
    rewrite E0. discriminate.
  - simpl in Hd. registry_cases Hd; try discriminate Ht.
    unfold convertQuantity. rewrite Nu.
    change (normalizeUnit (baseUnit countConversion)) with (@None jsstring).
    simpl truthyStr. rewrite orb_true_r. reflexivity.
Qed.

Lemma convertQuantity_to_base_witness :
  exists r, convertQuantity 2 (lit "cup") (lit "ml") = Some r
            /\ cr_quantity r == 2 * 236.588
            /\ Qabs (cr_quantity r - 2 * 236.588) <= tolerance
            /\ cr_unit r = lit "ml"
            /\ cr_baseQuantity r == 2 * 236.588
            /\ cr_baseUnit r = lit "ml".
Proof.
  refine (proj1 (@convertQuantity_to_base volumeConversion (lit "cup") 236.588 2 _ _) _).
  - in_list.
  - in_list.
  - discriminate.
Defined.

(** C3.  For every quantity and every pair of recognized units whose
    owning definitions have different base units, [convertQuantity]
    returns nothing. *)
Theorem convertQuantity_cross_category (x : Q) (fromUnit toUnit nf nt : jsstring)
  (gf gt : UnitConversion) :
  normalizeUnit fromUnit = Some nf -> normalizeUnit toUnit = Some nt ->
  owns gf nf -> owns gt nt ->
  baseUnit gf <> baseUnit gt ->
  convertQuantity x fromUnit toUnit = None.
Proof.
  intros Hf Ht Of Ot Hb.
  rewrite (@convertQuantity_owned x _ _ _ _ _ _ Hf Ht Of Ot), (@str_eqb_neq _ _ Hb).
  reflexivity.
Qed.

Lemma convertQuantity_cross_category_witness :
  convertQuantity 2 (lit "Cups") (lit "grams") = None.
Proof.
  apply (@convertQuantity_cross_category 2 (lit "Cups") (lit "grams")
           (lit "cup") (lit "g") volumeConversion weightConversion).
  - reflexivity.
  - reflexivity.
  - split; [in_list | reflexivity].
  - split; [in_list | reflexivity].
  - discriminate.
Defined.

(** ** Scaling *)

(** C8.  For a positive [originalServings], [scaleRecipe] returns a list
    of the same length and order; the output at each index carries its
    input ingredient unchanged, has [scaledQuantity] equal to the input
    quantity times [desiredServings / originalServings] (that is, times
    exactly one half for 24 servings scaled to 12), [scaledUnit] equal to
    the input unit, and [displayQuantity] equal to [formatQuantity] of the
    scaled quantity. *)
Theorem scaleRecipe_spec (ingredients : list ParsedIngredient)
  (originalServings desiredServings : Q) :
  0 < originalServings ->
  List.length (scaleRecipe ingredients originalServings desiredServings)
    = List.length ingredients
  /\ forall (i : nat) (ing : ParsedIngredient),
       nth_error ingredients i = Some ing ->
       exists s,
         nth_error (scaleRecipe ingredients originalServings desiredServings) i
           = Some s
         /\ parsed s = ing
         /\ scaledQuantity s
              = quantity ing * (desiredServings / originalServings)
         /\ (originalServings == 24 -> desiredServings == 12 ->
             scaledQuantity s == quantity ing * (1 # 2))
         /\ scaledUnit s = unit ing
         /\ displayQuantity s = formatQuantity (scaledQuantity s).
Proof.
  intros _. unfold scaleRecipe. split; [apply length_map|].
  intros i ing Hi. rewrite nth_error_map, Hi. simpl.
  eexists; split; [reflexivity|]. cbn [parsed scaledQuantity scaledUnit displayQuantity].
  repeat split. intros Ho Hd. rewrite Ho, Hd. field.
Qed.

Lemma scaleRecipe_spec_witness :
  exists s,
    nth_error (scaleRecipe [flourExample] 24 12) 0 = Some s
    /\ parsed s = flourExample
    /\ scaledQuantity s = (9 # 4) * (12 / 24)
    /\ (24 == 24 -> 12 == 12 -> scaledQuantity s == (9 # 4) * (1 # 2))
    /\ scaledUnit s = lit "cup"
    /\ displayQuantity s = formatQuantity (scaledQuantity s).
Proof.
  refine (proj2 (@scaleRecipe_spec [flourExample] 24 12 _) 0%nat flourExample _).
  - reflexivity.
  - reflexivity.
Defined.

(** ** Formatting: the rounded-up case *)

(** What [formatQuantity] renders when the denominator search ends with
    the numerator equal to the denominator: the fraction [1/1] is
    printed after the incremented whole part. *)
Lemma formatQuantity_numerator_eq_denominator (q : Q) :
  Qeq_bool (mod1 q) 0 = false ->
  bestNumerator (closestFraction_search (q - inject_Z (floor q)))
    = bestDenominator (closestFraction_search (q - inject_Z (floor q))) ->
  formatQuantity q =
    if (0 <? floor q + 1)%Z
    then intToString (floor q + 1) ++ lit " " ++ lit "1/1"
    else lit "1/1".
Proof.
  intros Hw Hb. unfold formatQuantity, closestFraction.
  rewrite Hw, Hb, Z.eqb_refl.
  cbn [error whole numerator denominator].
  change (Qltb 0 0.01) with true. cbv iota.
  destruct (0 <? floor q + 1)%Z; reflexivity.
Qed.

(** C5 (the code at the failing input).  For 0.999 the search ends with
    numerator 1 and denominator 1, and [formatQuantity] renders
    ["1 1/1"], not the whole-number string ["1"]. *)
Theorem formatQuantity_rounded_up_renders_fraction :
  bestNumerator (closestFraction_search (0.999 - inject_Z (floor 0.999))) = 1%Z
  /\ bestDenominator (closestFraction_search (0.999 - inject_Z (floor 0.999))) = 1%Z
  /\ intToString (floor 0.999 + 1) = lit "1"
  /\ formatQuantity 0.999 = lit "1 1/1"
  /\ formatQuantity 0.999 <> intToString (floor 0.999 + 1).
Proof.
  repeat split; try (vm_compute; reflexivity).
  vm_compute. discriminate.
Qed.

(** ** Ingredient lines *)

(** C6.  The two documented ingredient lines. *)
Theorem parseIngredientLine_examples :
  (exists p,
      parseIngredientLine (lit "2 1/4 cups all-purpose flour") = Some p
      /\ quantity p == 2.25
      /\ unit p = lit "cup"
      /\ ingredient p = lit "all-purpose flour"
      /\ notes p = None)
  /\ (exists p,
         parseIngredientLine (lit "2 eggs") = Some p
         /\ quantity p == 2
         /\ unit p = lit "eggs"
         /\ unitType p = count
         /\ owns countConversion (unit p)
         /\ ingredient p = lit "eggs"
         /\ notes p = None).
Proof.
  split; eexists; (split; [vm_compute; reflexivity|]);
    cbn [quantity unit unitType ingredient notes];
    repeat split; in_list.
Qed.

(** ** Digits: rendering and reading back *)

Ltac char_class :=
  unfold isDigit, isSpace, isLineTerminator, isUpper, isLower, inRange, ch in *;
  simpl N_of_ascii in *;
  repeat match goal with
    | H : _ && _ = true |- _ => apply andb_true_iff in H; destruct H
    | H : (_ <=? _)%N = true |- _ => apply N.leb_le in H
    | H : (_ =? _)%N = true |- _ => apply N.eqb_eq in H
    end.

Lemma digit_not_space (c : char) : isDigit c = true -> isSpace c = false.
Proof.
  intros H. char_class.
  repeat (apply orb_false_iff; split);
    try (apply andb_false_iff; rewrite !N.leb_gt; lia);
    apply N.eqb_neq; lia.
Qed.

Lemma digit_not_char (c : char) (a : ascii) :
  isDigit c = true -> isDigit (ch a) = false -> N.eqb c (ch a) = false.
Proof.
  intros H Ha. apply N.eqb_neq. intros ->. congruence.
Qed.

Lemma uint_allDigits (u : Decimal.uint) : allDigits (lit (NilEmpty.string_of_uint u)).
Proof.
  unfold allDigits.
  induction u; simpl; constructor; try assumption; reflexivity.
Qed.

Lemma digitsOf_allDigits (n : N) : allDigits (digitsOf n).
Proof. apply uint_allDigits. Qed.

Lemma digitsOf_nonempty (n : N) : digitsOf n <> [].
Proof.
  unfold digitsOf. destruct n as [|p]; [discriminate|].
  simpl N.to_uint. pose proof (Unsigned.to_uint_nonnil p) as H.
  destruct (Pos.to_uint p); try discriminate. congruence.
Qed.

(** Reading a rendered numeral back, from a positive accumulator. *)
Lemma digits_fold_acc (u : Decimal.uint) (acc : positive) :
  fold_left (fun a c => (10 * a + digitVal c)%Z)
            (lit (NilEmpty.string_of_uint u)) (Z.pos acc)
  = Z.pos (Pos.of_uint_acc u acc).
Proof.
  revert acc; induction u; intros acc;
    cbn [NilEmpty.string_of_uint lit fold_left Pos.of_uint_acc];
    try reflexivity; rewrite <- IHu; f_equal;
    match goal with
    | |- context [digitVal ?c] =>
        let v := eval vm_compute in (digitVal c) in
        change (digitVal c) with v
    end; lia.
Qed.

Lemma digitsValue_uint (u : Decimal.uint) :
  digitsValue (lit (NilEmpty.string_of_uint u)) = Z.of_N (N.of_uint u).
Proof.
  unfold digitsValue.
  induction u;
    cbn [NilEmpty.string_of_uint lit fold_left N.of_uint Pos.of_uint];
    try reflexivity; try apply IHu;
    first [ exact (digits_fold_acc u 1) | exact (digits_fold_acc u 2)
          | exact (digits_fold_acc u 3) | exact (digits_fold_acc u 4)
          | exact (digits_fold_acc u 5) | exact (digits_fold_acc u 6)
          | exact (digits_fold_acc u 7) | exact (digits_fold_acc u 8)
          | exact (digits_fold_acc u 9) ].
Qed.

Lemma digitsValue_digitsOf (n : N) : digitsValue (digitsOf n) = Z.of_N n.
Proof.
  unfold digitsOf. rewrite digitsValue_uint, DecimalN.Unsigned.of_to. reflexivity.
Qed.

Lemma spanDigits_all (s : jsstring) : allDigits s -> spanDigits s = (s, []).
Proof.
  induction 1 as [|c s Hc _ IH]; simpl; [reflexivity|].
  rewrite Hc, IH. reflexivity.
Qed.

Lemma splitSpaces_no_space (s : jsstring) :
  Forall (fun c => isSpace c = false) s -> splitSpaces s = [s].
Proof.
  induction 1 as [|c s Hc _ IH]; simpl; [reflexivity|].
  rewrite Hc, IH. reflexivity.
Qed.

Lemma includes_false (c : char) (s : jsstring) :
  Forall (fun x => N.eqb c x = false) s -> includes c s = false.
Proof.
  unfold includes.
  induction 1 as [|x s Hx _ IH]; simpl; [reflexivity|].
  rewrite Hx. exact IH.
Qed.

(** [parseFloat] on a non-empty run of digits is the run's value. *)
Lemma parseFloat_digits (ds : jsstring) :
  ds <> [] -> allDigits ds ->
  exists q, parseFloat ds = Num q /\ q == inject_Z (digitsValue ds).
Proof.
  intros Hne Hall. destruct ds as [|c ds]; [congruence|].
  pose proof Hall as Hall'. inversion Hall' as [|? ? Hc Hds]; subst.
  unfold parseFloat.
  assert (Ht : trimStart (c :: ds) = c :: ds).
  { simpl. rewrite (digit_not_space c Hc). reflexivity. }
  rewrite Ht. unfold readSign.
  rewrite (digit_not_char c "-" Hc eq_refl), (digit_not_char c "+" Hc eq_refl).
  rewrite (spanDigits_all _ Hall).
  eexists; split; [reflexivity|].
  change (List.length (@nil char)) with 0%nat.
  change (digitsValue []) with 0%Z.
  change (readExponent []) with 0%Z.
  change (Qpower 10 0) with 1.
  change (inject_Z (10 ^ Z.of_nat 0)) with 1.
  field.
Qed.

Lemma Qltb_lt (a b : Q) : Qltb a b = true <-> a < b.
Proof.
  unfold Qltb. rewrite negb_true_iff. split.
  - intros H. apply Qnot_le_lt. intros L.
    apply Qle_bool_iff in L. congruence.
  - intros H. destruct (Qle_bool b a) eqn:E; [|reflexivity].
    apply Qle_bool_iff in E. exfalso. exact (Qlt_not_le _ _ H E).
Qed.

Lemma Qltb_ge (a b : Q) : Qltb a b = false <-> b <= a.
Proof.
  unfold Qltb. rewrite negb_false_iff. apply Qle_bool_iff.
Qed.

Lemma trunc_inject_Z (n : Z) : trunc (inject_Z n) = n.
Proof.
  unfold trunc. destruct (Qle_bool 0 (inject_Z n)); [apply Qfloor_Z|].
  change (- inject_Z n) with (inject_Z (- n)). rewrite Qfloor_Z. lia.
Qed.

(** The whole-number branch of [formatQuantity]. *)
Lemma formatQuantity_whole (n : Z) : formatQuantity (inject_Z n) = intToString n.
Proof.
  unfold formatQuantity, mod1. rewrite trunc_inject_Z.
  assert (E : Qeq_bool (inject_Z n - inject_Z n) 0 = true)
    by (apply Qeq_bool_iff; ring).
  rewrite E. reflexivity.
Qed.

(** [parseQuantity] on a non-empty run of digits. *)
Lemma parseQuantity_digits (ds : jsstring) :
  ds <> [] -> allDigits ds ->
  exists q, q == inject_Z (digitsValue ds)
            /\ parseQuantity ds = if Qltb 0 q then Some q else None.
Proof.
  intros Hne Hall.
  destruct (parseFloat_digits ds Hne Hall) as [q [Hq Eq]].
  exists (0 + q). split; [rewrite Eq; ring|].
  unfold parseQuantity. rewrite splitSpaces_no_space.
  - cbn [parseQuantity_loop]. rewrite includes_false, Hq; [reflexivity|].
    eapply Forall_impl; [|exact Hall]. intros c Hc. cbv beta in Hc.
    rewrite N.eqb_sym. apply (digit_not_char c "/" Hc eq_refl).
  - eapply Forall_impl; [|exact Hall]. intros c Hc. apply digit_not_space, Hc.
Qed.

(** [parseFloat] on a minus sign followed by a non-empty run of digits. *)
Lemma parseFloat_minus_digits (ds : jsstring) :
  ds <> [] -> allDigits ds ->
  exists q, parseFloat (ch "-" :: ds) = Num q
            /\ q == - inject_Z (digitsValue ds).
Proof.
  intros Hne Hall. unfold parseFloat.
  change (trimStart (ch "-" :: ds)) with (ch "-" :: ds).
  change (readSign (ch "-" :: ds)) with (true, ds). cbv beta iota.
  rewrite (spanDigits_all _ Hall).
  destruct ds as [|c ds]; [congruence|].
  eexists; split; [reflexivity|].
  change (List.length (@nil char)) with 0%nat.
  change (digitsValue []) with 0%Z.
  change (readExponent []) with 0%Z.
  change (Qpower 10 0) with 1.
  change (inject_Z (10 ^ Z.of_nat 0)) with 1.
  field.
Qed.

Lemma parseQuantity_minus_digits (ds : jsstring) :
  ds <> [] -> allDigits ds -> parseQuantity (ch "-" :: ds) = None.
Proof.
  intros Hne Hall.
  destruct (parseFloat_minus_digits ds Hne Hall) as [q [Hq Eq]].
  assert (Hv : (0 <= digitsValue ds)%Z).
  { unfold digitsValue.
    assert (G : forall l acc, (0 <= acc)%Z ->
                (0 <= fold_left (fun a c => (10 * a + digitVal c)%Z) l acc)%Z).
    { induction l as [|c l IH]; intros acc Hacc; cbn [fold_left];
        [exact Hacc|].
      apply IH. unfold digitVal.
      pose proof (N2Z.is_nonneg (c - 48)). lia. }
    apply G. lia. }
  unfold parseQuantity. rewrite splitSpaces_no_space.
  - cbn [parseQuantity_loop].
    rewrite includes_false.
    + rewrite Hq.
      replace (Qltb 0 (0 + q)) with false; [reflexivity|].
      symmetry. apply Qltb_ge. rewrite Eq, Qplus_0_l.
      rewrite Zle_Qle in Hv. change (inject_Z 0) with 0 in Hv. lra.
    + constructor; [reflexivity|].
      eapply Forall_impl; [|exact Hall]. intros c Hc. cbv beta in Hc.
      rewrite N.eqb_sym. apply (digit_not_char c "/" Hc eq_refl).
  - constructor; [reflexivity|].
    eapply Forall_impl; [|exact Hall]. intros c Hc. apply digit_not_space, Hc.
Qed.

(** ** Formatting a whole number and parsing it back *)

(** C9 (counterexample).  Zero is a whole number; it is formatted as
    ["0"], which [parseQuantity] rejects because the total is not
    strictly positive.  The same happens for every negative whole
    number, e.g. -3. *)
Lemma roundTrip_fails_for_zero : ~ roundTrips 0 /\ ~ roundTrips (-3).
Proof.
  split; intros [q [H _]]; vm_compute in H; discriminate.
Qed.

(** C9 (amended).  For every strictly positive whole number [n],
    [parseQuantity (formatQuantity n)] succeeds and returns [n]; for zero
    and for every negative whole number it returns nothing. *)
Theorem parseQuantity_formatQuantity_whole (n : Z) :
  ((0 < n)%Z -> roundTrips n)
  /\ ((n <= 0)%Z -> parseQuantity (formatQuantity (inject_Z n)) = None).
Proof.
  rewrite formatQuantity_whole. unfold roundTrips, intToString. split.
  - intros Hn. rewrite formatQuantity_whole. unfold intToString.
    replace (n <? 0)%Z with false by (symmetry; apply Z.ltb_ge; lia).
    destruct (parseQuantity_digits _ (digitsOf_nonempty (Z.to_N n))
                (digitsOf_allDigits (Z.to_N n))) as [q [Eq Hq]].
    rewrite digitsValue_digitsOf, Z2N.id in Eq by lia.
    exists q. split; [|exact Eq].
    rewrite Hq.
    replace (Qltb 0 q) with true; [reflexivity|].
    symmetry. apply Qltb_lt. rewrite Eq.
    change 0 with (inject_Z 0). rewrite <- Zlt_Qlt. exact Hn.
  - intros Hn. destruct (n <? 0)%Z eqn:Hneg.
    + apply parseQuantity_minus_digits;
        [apply digitsOf_nonempty | apply digitsOf_allDigits].
    + apply Z.ltb_ge in Hneg. assert (n = 0%Z) by lia. subst n. reflexivity.
Qed.

Lemma parseQuantity_formatQuantity_whole_witness :
  roundTrips 3 /\ parseQuantity (formatQuantity (inject_Z (-3))) = None.
Proof.
  split.
  - apply (proj1 (parseQuantity_formatQuantity_whole 3)). reflexivity.
  - apply (proj2 (parseQuantity_formatQuantity_whole (-3))). discriminate.
Defined.

(** ** The denominator search *)

(** [Math.round] picks an integer nearest to its argument. *)
Lemma round_nearest (x : Q) (n : Z) :
  Qabs (inject_Z (round x) - x) <= Qabs (inject_Z n - x).
Proof.
  unfold round.
  pose proof (Qfloor_le (x + (1 # 2))) as Hlo.
  pose proof (Qlt_floor (x + (1 # 2))) as Hhi.
  set (k := Qfloor (x + (1 # 2))) in *. clearbody k.
  rewrite inject_Z_plus in Hhi. change (inject_Z 1) with 1 in Hhi.
  assert (Hk : Qabs (inject_Z k - x) <= 1 # 2)
    by (apply Qabs_Qle_condition; split; lra).
  destruct (Z.lt_trichotomy n k) as [Hn|[Hn|Hn]].
  - assert (Hn' : (n + 1 <= k)%Z) by lia.
    rewrite Zle_Qle, inject_Z_plus in Hn'. change (inject_Z 1) with 1 in Hn'.
    pose proof (Qle_Qabs (- (inject_Z n - x))) as Ha.
    rewrite Qabs_opp in Ha. lra.
  - subst n. apply Qle_refl.
  - assert (Hn' : (k + 1 <= n)%Z) by lia.
    rewrite Zle_Qle, inject_Z_plus in Hn'. change (inject_Z 1) with 1 in Hn'.
    pose proof (Qle_Qabs (inject_Z n - x)) as Ha. lra.
Qed.

Lemma round_nonneg (x : Q) : 0 <= x -> (0 <= round x)%Z.
Proof.
  intros Hx. unfold round. change 0%Z with (Qfloor 0).
  apply Qfloor_resp_le. lra.
Qed.

Lemma abs_div_sub (a r D : Q) :
  0 < D -> Qabs (a / D - r) == Qabs (a - r * D) * / D.
Proof.
  intros HD.
  assert (E : a / D - r == (a - r * D) * / D) by (field; lra).
  rewrite E, Qabs_Qmult.
  assert (Hinv : 0 <= / D) by (apply Qinv_le_0_compat; lra).
  rewrite (Qabs_pos (/ D) Hinv). reflexivity.
Qed.

(** No fraction with denominator [d] is closer to the remainder than the
    candidate of [d]. *)
Lemma candidateError_least (r : Q) (n d : Z) :
  (1 <= d)%Z ->
  candidateError r d <= Qabs (r - inject_Z n / inject_Z d).
Proof.
  intros Hd. unfold candidateError.
  assert (HD : 0 < inject_Z d).
  { change 0 with (inject_Z 0). rewrite <- Zlt_Qlt. lia. }
  rewrite (Qabs_Qminus r), !abs_div_sub by exact HD.
  apply Qmult_le_compat_r; [apply round_nearest|].
  apply Qinv_le_0_compat; lra.
Qed.

Lemma step_error (r : Q) (b : Best) (d : Z) :
  bestError (closestFraction_step r b d) <= bestError b
  /\ bestError (closestFraction_step r b d) <= candidateError r d.
Proof.
  unfold closestFraction_step. fold (candidateError r d).
  destruct (Qltb (candidateError r d) (bestError b)) eqn:E;
    cbn [bestError].
  - apply Qltb_lt in E. split; lra.
  - apply Qltb_ge in E. split; lra.
Qed.

Lemma search_error_le (r : Q) (ds : list Z) (b : Best) :
  bestError (fold_left (closestFraction_step r) ds b) <= bestError b.
Proof.
  revert b; induction ds as [|d ds IH]; intros b; simpl; [lra|].
  eapply Qle_trans; [apply IH|]. apply step_error.
Qed.

(** The search ends with an error no larger than any candidate's. *)
Lemma search_error_min (r : Q) (ds : list Z) (b : Best) (d : Z) :
  In d ds ->
  bestError (fold_left (closestFraction_step r) ds b) <= candidateError r d.
Proof.
  revert b; induction ds as [|d' ds IH]; intros b Hin; simpl; [contradiction|].
  destruct Hin as [->|Hin].
  - eapply Qle_trans; [apply search_error_le|]. apply step_error.
  - apply IH, Hin.
Qed.

Lemma search_bounded (r : Q) (ds : list Z) (b : Best) :
  0 <= r -> Forall (fun d => (1 <= d <= 16)%Z) ds ->
  boundedBest b -> boundedBest (fold_left (closestFraction_step r) ds b).
Proof.
  intros Hr Hds. revert b.
  induction Hds as [|d ds Hd _ IH]; intros b Hb; simpl; [exact Hb|].
  apply IH. unfold closestFraction_step.
  destruct (Qltb _ _); [|exact Hb].
  split; cbn [bestNumerator bestDenominator]; [|exact Hd].
  apply round_nonneg.
  assert (HD : 0 <= inject_Z d).
  { change 0 with (inject_Z 0). rewrite <- Zle_Qle. lia. }
  apply Qmult_le_0_compat; assumption.
Qed.

Lemma denominators_range (d : Z) :
  In d denominators <-> (1 <= d <= 16)%Z.
Proof.
  unfold denominators, maxDenominator. simpl. lia.
Qed.

Lemma closestFraction_search_min (r : Q) (d : Z) :
  (1 <= d <= 16)%Z ->
  bestError (closestFraction_search r) <= candidateError r d.
Proof.
  intros Hd. unfold closestFraction_search.
  apply search_error_min, denominators_range, Hd.
Qed.

Lemma closestFraction_search_bounded (r : Q) :
  0 <= r -> boundedBest (closestFraction_search r).
Proof.
  intros Hr. unfold closestFraction_search.
  apply search_bounded; [exact Hr | | split; simpl; lia].
  apply Forall_forall. intros x Hx. apply denominators_range, Hx.
Qed.

(** ** Formatting negative quantities *)

Lemma remainderOf_nonneg (v : Q) : 0 <= remainderOf v.
Proof.
  unfold remainderOf, floor. pose proof (Qfloor_le v). lra.
Qed.

Lemma floor_negative (v : Q) : v < 0 -> (floor v < 0)%Z.
Proof.
  intros Hv. unfold floor. rewrite Zlt_Qlt.
  eapply Qle_lt_trans; [apply Qfloor_le|]. exact Hv.
Qed.

Lemma intToString_nonneg (z : Z) :
  (0 <= z)%Z -> intToString z = digitsOf (Z.to_N z).
Proof.
  intros Hz. unfold intToString.
  replace (z <? 0)%Z with false by (symmetry; apply Z.ltb_ge; lia).
  reflexivity.
Qed.

Lemma allDigits_not_In (c : char) (s : jsstring) :
  isDigit c = false -> allDigits s -> ~ In c s.
Proof.
  intros Hc Hs Hin. unfold allDigits in Hs. rewrite Forall_forall in Hs.
  specialize (Hs c Hin). congruence.
Qed.

(** A string [digits/digits] has neither a minus sign nor a space. *)
Lemma bare_fraction_signless (a b : N) :
  ~ In (ch "-") (digitsOf a ++ lit "/" ++ digitsOf b)
  /\ ~ In (ch " ") (digitsOf a ++ lit "/" ++ digitsOf b).
Proof.
  split; intros Hin;
    apply in_app_or in Hin; destruct Hin as [Hin|Hin];
    try (revert Hin; apply allDigits_not_In;
         [reflexivity | apply digitsOf_allDigits]);
    apply in_app_or in Hin; destruct Hin as [Hin|Hin];
    try (revert Hin; apply allDigits_not_In;
         [reflexivity | apply digitsOf_allDigits]);
    simpl in Hin; destruct Hin as [Hin|[]]; discriminate Hin.
Qed.

(** C10.  For every negative non-whole value whose fractional remainder
    lies within 0.01 (strictly, as the code compares) of a fraction with
    a denominator from 1 to 16, [formatQuantity] returns a bare fraction
    [a/b] of two unsigned numerals: neither the minus sign nor the whole
    part is rendered.  In particular -0.5 and -2.5 both render as
    ["1/2"]. *)
Theorem formatQuantity_negative_bare_fraction :
  (forall v : Q,
      v < 0 ->
      Qeq_bool (mod1 v) 0 = false ->
      (exists n d : Z,
          (1 <= d <= 16)%Z
          /\ Qabs (remainderOf v - inject_Z n / inject_Z d) < 0.01) ->
      exists a b : N,
        formatQuantity v = digitsOf a ++ lit "/" ++ digitsOf b
        /\ (1 <= b <= 16)%N
        /\ ~ In (ch "-") (formatQuantity v)
        /\ ~ In (ch " ") (formatQuantity v))
  /\ formatQuantity (-0.5) = lit "1/2"
  /\ formatQuantity (-2.5) = lit "1/2".
Proof.
  split; [|split; reflexivity].
  intros v Hneg Hnw (n & d & Hd & Hnear).
  pose proof (remainderOf_nonneg v) as Hr.
  pose proof (floor_negative v Hneg) as Hfl.
  assert (Hmin : bestError (closestFraction_search (remainderOf v)) < 0.01).
  { eapply Qle_lt_trans; [|exact Hnear].
    eapply Qle_trans; [|apply candidateError_least; lia].
    apply closestFraction_search_min, Hd. }
  assert (Hb : boundedBest (closestFraction_search (remainderOf v)))
    by (apply closestFraction_search_bounded, Hr).
  destruct Hb as [Hn0 Hd0].
  assert (Hshape : exists a b : N,
             formatQuantity v = digitsOf a ++ lit "/" ++ digitsOf b
             /\ (1 <= b <= 16)%N).
  { unfold formatQuantity. rewrite Hnw. unfold closestFraction.
    fold (remainderOf v).
    destruct (bestNumerator (closestFraction_search (remainderOf v))
              =? bestDenominator (closestFraction_search (remainderOf v)))%Z.
    - cbn [error whole numerator denominator].
      change (Qltb 0 0.01) with true. cbv iota.
      replace (0 <? floor v + 1)%Z with false
        by (symmetry; apply Z.ltb_ge; lia).
      exists 1%N, 1%N. split; [reflexivity | lia].
    - cbn [error whole numerator denominator].
      replace (Qltb (bestError (closestFraction_search (remainderOf v))) 0.01)
        with true by (symmetry; apply Qltb_lt; exact Hmin).
      replace (0 <? floor v)%Z with false
        by (symmetry; apply Z.ltb_ge; lia).
      rewrite !intToString_nonneg by lia.
      eexists; eexists; split; [reflexivity | lia]. }
  destruct Hshape as (a & b & Hfmt & Hrange).
  exists a, b. rewrite Hfmt.
  split; [reflexivity|]. split; [exact Hrange|].
  apply bare_fraction_signless.
Qed.

Lemma formatQuantity_negative_bare_fraction_witness :
  exists a b : N,
    formatQuantity (-2.5) = digitsOf a ++ lit "/" ++ digitsOf b
    /\ (1 <= b <= 16)%N
    /\ ~ In (ch "-") (formatQuantity (-2.5))
    /\ ~ In (ch " ") (formatQuantity (-2.5)).
Proof.
  apply (proj1 formatQuantity_negative_bare_fraction (-2.5)).
  - reflexivity.
  - reflexivity.
  - exists 1%Z, 2%Z. split; [lia | reflexivity].
Defined.

(** ** The quantity parser against its description *)

Lemma splitChar_cons (c : char) (s : jsstring) :
  splitChar c s =
    beforeChar c s ::
      (if includes c s then splitChar c (afterChar c s) else []).
Proof.
  unfold includes.
  induction s as [|x s IH]; simpl; [reflexivity|].
  rewrite (N.eqb_sym c x).
  destruct (N.eqb x c); simpl; [reflexivity|].
  rewrite IH. reflexivity.
Qed.

Lemma parseFloat_empty : parseFloat [] = NaN.
Proof. reflexivity. Qed.

(** [parts[i] ? parseFloat(parts[i]) : NaN] is [parseFloat(parts[i])]
    whenever the index exists: the empty string reads as [NaN] too. *)
Lemma fractionTerm_nth (fp : list jsstring) (i : nat) (t : jsstring) :
  nth_error fp i = Some t -> fractionTerm fp i = parseFloat t.
Proof.
  intros H. unfold fractionTerm. rewrite H.
  rewrite (nth_error_nth fp i [] H).
  destruct t; reflexivity.
Qed.

Lemma fractionTerms_of_part (part : jsstring) :
  isFractionPart part = true ->
  fractionTerm (splitChar (ch "/") part) 0 = parseFloat (numeratorText part)
  /\ fractionTerm (splitChar (ch "/") part) 1 = parseFloat (denominatorText part).
Proof.
  intros Hf. unfold isFractionPart in Hf.
  rewrite splitChar_cons, Hf, splitChar_cons.
  split; apply fractionTerm_nth; reflexivity.
Qed.

(** One turn of the loop, part by part. *)
Lemma parseQuantity_loop_part (part : jsstring) :
  ((nonNumericPart part \/ zeroDenominatorPart part)
   /\ forall parts total, parseQuantity_loop (part :: parts) total = None)
  \/ (numericPart part /\ ~ zeroDenominatorPart part
      /\ forall parts total,
           parseQuantity_loop (part :: parts) total
           = parseQuantity_loop parts (total + partContribution part)).
Proof.
  unfold nonNumericPart, numericPart, zeroDenominatorPart, partContribution.
  cbn [parseQuantity_loop]. fold (isFractionPart part).
  destruct (isFractionPart part) eqn:Hf.
  - destruct (fractionTerms_of_part part Hf) as [-> ->].
    destruct (parseFloat (numeratorText part)) as [|a].
    { left. split; [|reflexivity]. left. intros (a & b & Ha & _). discriminate. }
    destruct (parseFloat (denominatorText part)) as [|b].
    { left. split; [|reflexivity]. left. intros (a' & b & _ & Hb). discriminate. }
    destruct (Qeq_bool b 0) eqn:Hz.
    + left. split; [|reflexivity]. right. split; [reflexivity|].
      exists b. split; [reflexivity|]. apply Qeq_bool_iff, Hz.
    + right. split; [exists a, b; split; reflexivity|].
      split; [|reflexivity].
      intros (_ & b' & Hb & Hb0). injection Hb as <-.
      apply Qeq_bool_neq in Hz. contradiction.
  - destruct (parseFloat part) as [|q].
    + left. split; [|reflexivity]. left. intros (q & Hq). discriminate.
    + right. split; [exists q; reflexivity|].
      split; [|reflexivity]. intros (Hc & _). discriminate.
Qed.

(** The whole loop: either some part is rejected and the loop returns
    nothing, or every part is accepted and the loop compares the sum
    with zero. *)
Lemma parseQuantity_loop_spec (parts : list jsstring) (total : Q) :
  ((Exists nonNumericPart parts \/ Exists zeroDenominatorPart parts)
   /\ parseQuantity_loop parts total = None)
  \/ (Forall numericPart parts
      /\ Forall (fun part => ~ zeroDenominatorPart part) parts
      /\ exists q, q == total + partsTotal parts
                   /\ parseQuantity_loop parts total
                      = if Qltb 0 q then Some q else None).
Proof.
  revert total; induction parts as [|part parts IH]; intros total.
  - right. split; [constructor|]. split; [constructor|].
    exists total. split; [simpl; ring | reflexivity].
  - destruct (parseQuantity_loop_part part) as [[Hbad Hnone]|(Hnum & Hden & Hstep)].
    + left. split; [|apply Hnone].
      destruct Hbad as [Hbad|Hbad]; [left|right]; constructor; exact Hbad.
    + rewrite Hstep.
      destruct (IH (total + partContribution part))
        as [[Hbad Hnone]|(Hnums & Hdens & q & Hq & Hloop)].
      * left. split; [|exact Hnone].
        destruct Hbad as [Hbad|Hbad]; [left|right];
          apply Exists_cons_tl; exact Hbad.
      * right. split; [constructor; assumption|].
        split; [constructor; assumption|].
        exists q. split; [|exact Hloop].
        rewrite Hq. simpl. ring.
Qed.

(** C4 (amended).  [parseQuantity] returns nothing if [parseFloat] reads
    no number from some whitespace-separated part (for a fraction part:
    from the text before its first slash or the text after it), or a
    fraction part has denominator zero, or the sum of the parts is not
    strictly positive; otherwise it returns the sum of the parts, each
    part contributing the number [parseFloat] reads from it and a
    fraction part [a/b] contributing [a] divided by [b]. *)
Theorem parseQuantity_spec (token : jsstring) :
  (rejectedToken token -> parseQuantity token = None)
  /\ (~ rejectedToken token ->
      exists q, parseQuantity token = Some q
                /\ q == partsTotal (splitSpaces token)).
Proof.
  unfold rejectedToken, parseQuantity.
  destruct (parseQuantity_loop_spec (splitSpaces token) 0)
    as [[Hbad Hnone]|(Hnums & Hdens & q & Hq & Hloop)].
  - split; [intros _; exact Hnone|].
    intros Hok. exfalso. apply Hok. tauto.
  - rewrite Qplus_0_l in Hq.
    assert (Hnobad : ~ Exists nonNumericPart (splitSpaces token)).
    { intros Hex. apply Exists_exists in Hex. destruct Hex as (p & Hin & Hp).
      rewrite Forall_forall in Hnums. exact (Hp (Hnums p Hin)). }
    assert (Hnozero : ~ Exists zeroDenominatorPart (splitSpaces token)).
    { intros Hex. apply Exists_exists in Hex. destruct Hex as (p & Hin & Hp).
      rewrite Forall_forall in Hdens. exact (Hdens p Hin Hp). }
    rewrite Hloop. destruct (Qltb 0 q) eqn:Hpos.
    + apply Qltb_lt in Hpos. split.
      * intros [H|[H|H]]; try contradiction. rewrite <- Hq in H. contradiction.
      * intros _. exists q. split; [reflexivity | exact Hq].
    + apply Qltb_ge in Hpos. split; [reflexivity|].
      intros Hok. exfalso. apply Hok. right. right.
      rewrite <- Hq. apply Qle_not_lt, Hpos.
Qed.

Lemma parseQuantity_spec_witness :
  parseQuantity (lit "1/0") = None
  /\ exists q, parseQuantity (lit "2 1/4") = Some q
               /\ q == partsTotal (splitSpaces (lit "2 1/4")).
Proof.
  split.
  - apply (proj1 (parseQuantity_spec (lit "1/0"))).
    right; left. apply Exists_cons_hd. split; [reflexivity|].
    exists 0. split; reflexivity.
  - apply (proj2 (parseQuantity_spec (lit "2 1/4"))).
    unfold rejectedToken.
    change (splitSpaces (lit "2 1/4")) with [lit "2"; lit "1/4"].
    intros [H|[H|H]].
    + apply Exists_exists in H. destruct H as (p & Hin & Hp).
      destruct Hin as [<-|[<-|[]]]; apply Hp.
      * exists 2. reflexivity.
      * exists 1, 4. split; reflexivity.
    + apply Exists_exists in H. destruct H as (p & Hin & Hf & b & Hb & Hb0).
      destruct Hin as [<-|[<-|[]]].
      * discriminate Hf.
      * vm_compute in Hb. injection Hb as <-. discriminate Hb0.
    + apply H. reflexivity.
Defined.

(** C4 (counterexample).  ["1.2.3"] is not a decimal literal, yet
    [parseQuantity] does not reject it: [parseFloat] reads the longest
    numeric prefix, and the result is 1.2.  The same happens with
    ["1/2/3"], read as one half. *)
Lemma parseQuantity_accepts_numeric_prefix :
  ~ (forall token,
        Exists (fun part => strictlyNumericPart part = false)
               (splitSpaces token) ->
        parseQuantity token = None).
Proof.
  intros H. specialize (H (lit "1.2.3")).
  assert (E : parseQuantity (lit "1.2.3") = Some 1.2) by reflexivity.
  rewrite E in H. discriminate H.
  apply Exists_cons_hd. reflexivity.
Qed.

(** What the quantity parser makes of parts that only start with a
    number, alone and through an ingredient line. *)
Lemma parseQuantity_numeric_prefix_examples :
  (exists q, parseQuantity (lit "1.2.3") = Some q /\ q == 1.2)
  /\ (exists q, parseQuantity (lit "1/2/3") = Some q /\ q == 1 # 2)
  /\ (exists p, parseIngredientLine (lit "1.2.3 cups flour") = Some p
                /\ quantity p == 1.2 /\ unit p = lit "cup").
Proof.
  repeat split; eexists; (split; [vm_compute; reflexivity|]);
    repeat split; reflexivity.
Qed.

(** ** The matcher on character classes *)

Section ClassMatching.

Context {A : Type}.






End ClassMatching.

(** ** Instruction steps *)




Lemma negb_true_Forall (p : char -> bool) (l : jsstring) :
  Forall (fun c => negb (p c) = true) l <-> Forall (fun c => p c = false) l.
Proof.
  split; intros H; eapply Forall_impl; try exact H; intros c Hc;
    cbv beta in *; destruct (p c); simpl in *; congruence.
Qed.


Lemma trimStart_head (s : jsstring) (c : char) (r : jsstring) :
  trimStart s = c :: r -> isSpace c = false.
Proof.
  induction s as [|x s IH]; simpl; [discriminate|].
  destruct (isSpace x) eqn:Hx; [exact IH|].
  intros E. injection E as <- _. exact Hx.
Qed.







Lemma parseInstructions_step_fst (st : list ParsedInstruction * number)
  (line : jsstring) :
  fst (parseInstructions_step st line) = fst st ++ lineRecords line.
Proof.
  unfold lineRecords, parseInstructions_step. destruct st as [ins n].
  destruct (skippedLine line); [simpl; rewrite app_nil_r; reflexivity|].
  destruct (matchStart stepRe (trim line)) as [[? ?]|]; simpl;
    [reflexivity | rewrite app_nil_r; reflexivity].
Qed.

Lemma parseInstructions_fold (lines : list jsstring)
  (st : list ParsedInstruction * number) :
  fst (fold_left parseInstructions_step lines st)
  = fst st ++ flat_map lineRecords lines.
Proof.
  revert st; induction lines as [|l lines IH]; intros st; simpl.
  - rewrite app_nil_r. reflexivity.
  - rewrite IH, parseInstructions_step_fst, app_assoc. reflexivity.
Qed.






(** ** Independence of the representation *)

(** A rational has many representations as a fraction; the formatter
    does not see the difference. *)

Lemma Qltb_compat (a a' b b' : Q) :
  a == a' -> b == b' -> Qltb a b = Qltb a' b'.
Proof. intros Ha Hb. unfold Qltb. rewrite Ha, Hb. reflexivity. Qed.

Lemma round_compat (x x' : Q) : x == x' -> round x = round x'.
Proof.
  intros H. unfold round. apply Qfloor_comp. rewrite H. reflexivity.
Qed.

Lemma trunc_compat (x x' : Q) : x == x' -> trunc x = trunc x'.
Proof.
  intros H. unfold trunc.
  assert (Hb : Qle_bool 0 x = Qle_bool 0 x') by (rewrite H; reflexivity).
  assert (Ho : - x == - x') by (rewrite H; reflexivity).
  rewrite Hb, (Qfloor_comp x x' H), (Qfloor_comp _ _ Ho). reflexivity.
Qed.

Lemma step_compat (r r' : Q) (b b' : Best) (d : Z) :
  r == r' -> sameBest b b' ->
  sameBest (closestFraction_step r b d) (closestFraction_step r' b' d).
Proof.
  intros Hr (Hn & Hd & He). unfold closestFraction_step.
  assert (Hround : round (r * inject_Z d) = round (r' * inject_Z d))
    by (apply round_compat; rewrite Hr; reflexivity).
  rewrite Hround.
  assert (Herr : Qabs (inject_Z (round (r' * inject_Z d)) / inject_Z d - r)
                 == Qabs (inject_Z (round (r' * inject_Z d)) / inject_Z d - r'))
    by (rewrite Hr; reflexivity).
  rewrite (Qltb_compat _ _ _ _ Herr He).
  destruct (Qltb _ _); [|repeat split; assumption].
  repeat split; cbn [bestError]; assumption.
Qed.

Lemma fold_compat (r r' : Q) (ds : list Z) (b b' : Best) :
  r == r' -> sameBest b b' ->
  sameBest (fold_left (closestFraction_step r) ds b)
           (fold_left (closestFraction_step r') ds b').
Proof.
  intros Hr. revert b b'.
  induction ds as [|d ds IH]; intros b b' Hb; simpl; [exact Hb|].
  apply IH, step_compat; assumption.
Qed.

Lemma search_compat (r r' : Q) : r == r' ->
  sameBest (closestFraction_search r) (closestFraction_search r').
Proof.
  intros Hr. unfold closestFraction_search.
  apply fold_compat; [exact Hr|]. repeat split; reflexivity.
Qed.

Lemma toFixed2_compat (q q' : Q) : q == q' -> toFixed2 q = toFixed2 q'.
Proof.
  intros H. unfold toFixed2.
  rewrite (Qltb_compat q q' 0 0 H (Qeq_refl 0)).
  assert (E : Qfloor (Qabs q * 100 + (1 # 2)) = Qfloor (Qabs q' * 100 + (1 # 2)))
    by (apply Qfloor_comp; rewrite H; reflexivity).
  rewrite E. reflexivity.
Qed.

Lemma formatQuantity_compat (q q' : Q) :
  q == q' -> formatQuantity q = formatQuantity q'.
Proof.
  intros H. unfold formatQuantity, mod1.
  rewrite (trunc_compat q q' H).
  assert (Hm : Qeq_bool (q - inject_Z (trunc q')) 0
               = Qeq_bool (q' - inject_Z (trunc q')) 0)
    by (rewrite H; reflexivity).
  rewrite Hm. clear Hm.
  destruct (Qeq_bool (q' - inject_Z (trunc q')) 0); [reflexivity|].
  unfold closestFraction, floor.
  rewrite (Qfloor_comp q q' H).
  assert (Hr : q - inject_Z (Qfloor q') == q' - inject_Z (Qfloor q'))
    by (rewrite H; reflexivity).
  destruct (search_compat _ _ Hr) as (Hn & Hd & He).
  rewrite Hn, Hd.
  destruct (bestNumerator (closestFraction_search (q' - inject_Z (Qfloor q')))
            =? bestDenominator (closestFraction_search (q' - inject_Z (Qfloor q'))))%Z;
    cbn [error whole numerator denominator].
  - change (Qltb 0 0.01) with true. reflexivity.
  - rewrite (Qltb_compat _ _ 0.01 0.01 He (Qeq_refl _)).
    rewrite (toFixed2_compat q q' H). reflexivity.
Qed.

(* ================================================================== *)
(** * Further properties of the unit registry and the converter *)
(* ================================================================== *)

Lemma lookup_In_snd {A : Type} (k : jsstring) (tbl : list (jsstring * A)) (v : A) :
  lookup k tbl = Some v -> In v (map snd tbl).
Proof.
  induction tbl as [|[k' v'] tbl IH]; simpl; [discriminate|].
  destruct (str_eqb k k').
  - intros E. injection E as <-. auto.
  - auto.
Qed.

Lemma truthyStr_Some (o : option jsstring) :
  truthyStr o = true -> exists u, o = Some u /\ u <> [].
Proof.
  destruct o as [[|c u]|]; simpl; try discriminate.
  intros _. eexists; split; [reflexivity | discriminate].
Qed.

Lemma truthyNum_Some (o : option Q) :
  truthyNum o = true -> exists m, o = Some m /\ ~ m == 0.
Proof.
  destruct o as [m|]; simpl; [|discriminate].
  intros H. exists m. split; [reflexivity|].
  apply negb_true_iff, Qeq_bool_neq in H. exact H.
Qed.

Lemma normalizeUnit_loop_Some (lower u : jsstring) (defs : list UnitConversion) :
  normalizeUnit_loop lower defs = Some u ->
  u = lower /\ exists d, In d defs /\ truthyNum (lookup u (conversions d)) = true.
Proof.
  induction defs as [|d defs IH]; simpl; [discriminate|].
  destruct (truthyNum (lookup lower (conversions d))) eqn:E.
  - intros H. injection H as <-. split; [reflexivity|]. exists d. auto.
  - intros H. destruct (IH H) as (-> & d' & Hin & Ht).
    split; [reflexivity|]. exists d'. auto.
Qed.

(** Every alias points to a unit some definition lists. *)
Lemma alias_targets_owned (u : jsstring) :
  In u (map snd UNIT_ALIASES) -> exists d, owns d u.
Proof.
  intros H. simpl in H.
  repeat (destruct H as [H|H];
          [subst u;
           first [ exists volumeConversion; split; [in_list | reflexivity]
                 | exists weightConversion; split; [in_list | reflexivity]
                 | exists countConversion; split; [in_list | reflexivity] ] |]).
  contradiction.
Qed.

Lemma normalizeUnit_owned (s u : jsstring) :
  normalizeUnit s = Some u -> exists d, owns d u.
Proof.
  unfold normalizeUnit.
  destruct (truthyStr (lookup (trim (toLowerCase s)) UNIT_ALIASES)) eqn:E.
  - intros H. apply alias_targets_owned. eapply lookup_In_snd, H.
  - intros H. apply normalizeUnit_loop_Some in H.
    destruct H as (_ & d & Hin & Ht). exists d. split; assumption.
Qed.

(** X1.  Whatever [normalizeUnit] returns is a unit listed by a
    definition of the registry, is not the empty string, and is a fixed
    point of [normalizeUnit]: normalizing twice changes nothing, and no
    alias leads outside the registry.  The names a JavaScript object
    inherits are left out: the tables are read by their own keys. *)
Theorem normalizeUnit_canonical (s u : jsstring) :
  ownName s = true ->
  normalizeUnit s = Some u ->
  (exists d, owns d u) /\ u <> [] /\ normalizeUnit u = Some u.
Proof.
  intros _ H. destruct (normalizeUnit_owned s u H) as [d Hd].
  split; [exists d; exact Hd|].
  destruct (owns_lastOwner d u Hd) as (_ & Hne & Hfix). auto.
Qed.

Lemma normalizeUnit_canonical_witness :
  (exists d, owns d (lit "tbsp")) /\ lit "tbsp" <> []
  /\ normalizeUnit (lit "tbsp") = Some (lit "tbsp").
Proof.
  apply (normalizeUnit_canonical (lit " Tablespoons") (lit "tbsp"));
    reflexivity.
Defined.

Lemma fold_last_match {A : Type} (P : A -> bool) (l : list A) (init : option A) (d : A) :
  fold_left (fun g x => if P x then Some x else g) l init = Some d ->
  init = Some d \/ (In d l /\ P d = true).
Proof.
  revert init; induction l as [|x l IH]; intros init; simpl; [auto|].
  intros H. destruct (IH _ H) as [E|[Hin Hp]].
  - destruct (P x) eqn:Px; [|auto]. injection E as <-. right. auto.
  - right. auto.
Qed.

Lemma lastOwner_owns (u : jsstring) (d : UnitConversion) :
  lastOwner u = Some d -> owns d u.
Proof.
  unfold lastOwner. intros H.
  apply (fold_last_match (fun d => truthyNum (lookup u (conversions d)))) in H.
  destruct H as [H|[Hin Hp]]; [discriminate|]. split; assumption.
Qed.


(** The definitions of the registry differ in base unit and in type. *)
Lemma registry_distinct (d d' : UnitConversion) :
  In d unitDefinitions -> In d' unitDefinitions ->
  (baseUnit d = baseUnit d' -> d = d') /\ (type d = type d' -> d = d').
Proof.
  intros H H'. simpl in H, H'.
  registry_cases H; registry_cases H';
    split; intros E; try reflexivity; discriminate E.
Qed.

Lemma getUnitType_owned (d : UnitConversion) (u : jsstring) :
  owns d u -> getUnitType u = type d.
Proof.
  intros [Hd Hu]. apply truthy_lookup_In in Hu.
  simpl in Hd. registry_cases Hd; simpl in Hu; registry_cases Hu; reflexivity.
Qed.

(** What a successful conversion is made of. *)
Lemma convertQuantity_Some (x : Q) (f t : jsstring) (r : ConversionResult) :
  convertQuantity x f t = Some r ->
  exists nf nt g mf mt,
    normalizeUnit f = Some nf /\ normalizeUnit t = Some nt
    /\ owns g nf /\ owns g nt
    /\ lookup nf (conversions g) = Some mf /\ ~ mf == 0
    /\ lookup nt (conversions g) = Some mt /\ ~ mt == 0
    /\ r = {| cr_quantity := x * mf / mt; cr_unit := nt;
              cr_baseQuantity := x * mf; cr_baseUnit := baseUnit g |}.
Proof.
  intros H.
  destruct (normalizeUnit f) as [nf|] eqn:Hf;
    [|unfold convertQuantity in H; rewrite Hf in H; discriminate H].
  destruct (normalizeUnit t) as [nt|] eqn:Ht;
    [|unfold convertQuantity in H; rewrite Hf, Ht in H;
      simpl in H; rewrite orb_true_r in H; discriminate H].
  destruct (normalizeUnit_owned f nf Hf) as [gf Of].
  destruct (normalizeUnit_owned t nt Ht) as [gt Ot].
  rewrite (convertQuantity_owned x f t nf nt gf gt Hf Ht Of Ot) in H.
  destruct (str_eqb (baseUnit gf) (baseUnit gt)) eqn:Eb; [|discriminate H].
  apply str_eqb_eq in Eb.
  assert (gf = gt)
    by (apply (proj1 (registry_distinct gf gt (proj1 Of) (proj1 Ot))), Eb).
  subst gt.
  destruct (truthyNum_Some _ (proj2 Of)) as (mf & Lf & Nf).
  destruct (truthyNum_Some _ (proj2 Ot)) as (mt & Lt & Nt).
  rewrite Lf, Lt in H. simpl in H. injection H as <-.
  exists nf, nt, gf, mf, mt. repeat split; try assumption; apply Of || apply Ot.
Qed.

(** X2.  [convertQuantity] succeeds exactly when both unit names are
    recognized and their canonical units have the same unit type; the
    quantity plays no part in it.  The names a JavaScript object
    inherits are left out: the tables are read by their own keys. *)
Theorem convertQuantity_succeeds_iff (x : Q) (f t : jsstring) :
  ownName f = true -> ownName t = true ->
  ((exists r, convertQuantity x f t = Some r) <->
   (exists nf nt, normalizeUnit f = Some nf /\ normalizeUnit t = Some nt
                  /\ getUnitType nf = getUnitType nt)).
Proof.
  intros _ _. split.
  - intros [r H].
    destruct (convertQuantity_Some x f t r H)
      as (nf & nt & g & mf & mt & Hf & Ht & Of & Ot & _).
    exists nf, nt. repeat split; try assumption.
    rewrite (getUnitType_owned g nf Of), (getUnitType_owned g nt Ot). reflexivity.
  - intros (nf & nt & Hf & Ht & Hty).
    destruct (normalizeUnit_owned f nf Hf) as [gf Of].
    destruct (normalizeUnit_owned t nt Ht) as [gt Ot].
    rewrite (getUnitType_owned gf nf Of), (getUnitType_owned gt nt Ot) in Hty.
    assert (gf = gt)
      by (apply (proj2 (registry_distinct gf gt (proj1 Of) (proj1 Ot))), Hty).
    subst gt.
    rewrite (convertQuantity_owned x f t nf nt gf gf Hf Ht Of Ot), str_eqb_refl.
    eexists. reflexivity.
Qed.

Lemma convertQuantity_succeeds_iff_witness :
  (exists r, convertQuantity 2 (lit "Cups") (lit "ml") = Some r) <->
  (exists nf nt, normalizeUnit (lit "Cups") = Some nf
                 /\ normalizeUnit (lit "ml") = Some nt
                 /\ getUnitType nf = getUnitType nt).
Proof.
  apply (convertQuantity_succeeds_iff 2 (lit "Cups") (lit "ml")); reflexivity.
Defined.





(* ================================================================== *)
(** * Further properties of the formatter *)
(* ================================================================== *)

Lemma inject_Z_pos (d : Z) : (1 <= d)%Z -> 0 < inject_Z d.
Proof.
  intros H. change 0 with (inject_Z 0). rewrite <- Zlt_Qlt. lia.
Qed.

Lemma round_le (r : Q) (d : Z) :
  0 <= r -> r <= 1 -> (1 <= d)%Z ->
  (0 <= round (r * inject_Z d) <= d)%Z.
Proof.
  intros H0 H1 Hd. pose proof (inject_Z_pos d Hd) as HD. split.
  - apply round_nonneg. apply Qmult_le_0_compat; lra.
  - unfold round.
    assert (Hlt : r * inject_Z d + (1 # 2) < inject_Z (d + 1)).
    { rewrite inject_Z_plus. change (inject_Z 1) with 1.
      assert (r * inject_Z d <= 1 * inject_Z d)
        by (apply Qmult_le_compat_r; lra).
      lra. }
    pose proof (Qfloor_le (r * inject_Z d + (1 # 2))) as Hfl.
    assert (Hz : inject_Z (Qfloor (r * inject_Z d + (1 # 2))) < inject_Z (d + 1))
      by (eapply Qle_lt_trans; eassumption).
    rewrite <- Zlt_Qlt in Hz. lia.
Qed.

(** A candidate that is not in lowest terms has the error of an earlier
    candidate at most. *)
Lemma candidateError_reduced (r : Q) (d : Z) :
  (1 <= d)%Z ->
  Z.gcd (round (r * inject_Z d)) d <> 1%Z ->
  exists d', (1 <= d' < d)%Z /\ candidateError r d' <= candidateError r d.
Proof.
  intros Hd Hg.
  set (n := round (r * inject_Z d)) in *.
  set (g := Z.gcd n d) in *.
  assert (Hg0 : (0 <= g)%Z) by apply Z.gcd_nonneg.
  assert (Hgd : (g | d)%Z) by apply Z.gcd_divide_r.
  assert (Hgn : (g | n)%Z) by apply Z.gcd_divide_l.
  destruct Hgd as [d' Ed]. destruct Hgn as [n' En].
  assert (Hg2 : (2 <= g)%Z).
  { assert (g <> 0%Z) by (intros E; rewrite E in Ed; lia). lia. }
  assert (Hd' : (1 <= d' < d)%Z) by nia.
  exists d'. split; [exact Hd'|].
  eapply Qle_trans; [apply (candidateError_least r n' d'); lia|].
  unfold candidateError. fold n. rewrite (Qabs_Qminus r).
  assert (E : inject_Z n' / inject_Z d' == inject_Z n / inject_Z d).
  { rewrite En, Ed, !inject_Z_mult.
    pose proof (inject_Z_pos d' (proj1 Hd')).
    pose proof (inject_Z_pos g ltac:(lia)).
    field. split; lra. }
  rewrite E. apply Qle_refl.
Qed.

Lemma searchUpTo_S (r : Q) (k : nat) :
  searchUpTo r (S k)
  = closestFraction_step r (searchUpTo r k) (Z.of_nat (S k)).
Proof.
  unfold searchUpTo. rewrite seq_S, map_app, fold_left_app. reflexivity.
Qed.

Lemma searchUpTo_invariant (r : Q) (k : nat) :
  0 <= r -> r < 1 -> searchInvariant r k (searchUpTo r k).
Proof.
  intros H0 H1. induction k as [|k IH].
  - unfold searchUpTo, searchInvariant.
    cbn [seq map fold_left bestNumerator bestDenominator bestError].
    split; [lia|]. split; [lia|]. split; [reflexivity|].
    split; [intros d Hd; lia|]. split; [intros Hk; lia | lra].
  - rewrite searchUpTo_S.
    destruct IH as (Hn & Hd & Hg & Hmin & Herr & Hone).
    set (b := searchUpTo r k) in *.
    set (d := Z.of_nat (S k)).
    assert (Hd1 : (1 <= d)%Z) by (unfold d; lia).
    unfold closestFraction_step. fold (candidateError r d).
    destruct (Qltb (candidateError r d) (bestError b)) eqn:E.
    + apply Qltb_lt in E.
      unfold searchInvariant. cbn [bestNumerator bestDenominator bestError].
      split; [apply round_le; [exact H0 | lra | exact Hd1]|].
      split; [unfold d in *; lia|].
      split.
      { destruct (Z.eq_dec (Z.gcd (round (r * inject_Z d)) d) 1) as [G|G];
          [exact G|].
        destruct (candidateError_reduced r d Hd1 G) as (d' & Hd' & Hle).
        assert (bestError b <= candidateError r d')
          by (apply Hmin; unfold d in Hd'; lia).
        lra. }
      split.
      { intros d' Hd'.
        destruct (Z.eq_dec d' d) as [->|Hne]; [apply Qle_refl|].
        assert (bestError b <= candidateError r d')
          by (apply Hmin; unfold d in *; lia).
        lra. }
      split; [intros _; reflexivity | lra].
    + apply Qltb_ge in E.
      unfold searchInvariant.
      split; [exact Hn|]. split; [unfold d in *; lia|]. split; [exact Hg|].
      split.
      { intros d' Hd'.
        destruct (Z.eq_dec d' d) as [->|Hne]; [exact E|].
        apply Hmin. unfold d in *; lia. }
      split; [|exact Hone].
      intros _. destruct k as [|k]; [|apply Herr; lia].
      exfalso.
      assert (Hc : candidateError r d <= Qabs (r - inject_Z 0 / inject_Z d))
        by (apply candidateError_least; exact Hd1).
      assert (Hz : r - inject_Z 0 / inject_Z d == r)
        by (change (inject_Z 0) with 0; unfold Qdiv; ring).
      rewrite Hz, (Qabs_pos r H0) in Hc.
      assert (Hb : bestError b == 1) by reflexivity.
      lra.
Qed.

Lemma closestFraction_search_invariant (r : Q) :
  0 <= r -> r < 1 -> searchInvariant r 16 (closestFraction_search r).
Proof.
  intros H0 H1.
  assert (E : closestFraction_search r = searchUpTo r 16)
    by (unfold closestFraction_search, searchUpTo, denominators, maxDenominator;
        reflexivity).
  rewrite E. apply searchUpTo_invariant; assumption.
Qed.

Lemma remainderOf_lt_1 (v : Q) : remainderOf v < 1.
Proof.
  unfold remainderOf, floor. pose proof (Qlt_floor v) as H.
  rewrite inject_Z_plus in H. change (inject_Z 1) with 1 in H. lra.
Qed.

Lemma search_round_up (r : Q) :
  0 <= r -> r < 1 ->
  bestNumerator (closestFraction_search r) = bestDenominator (closestFraction_search r) ->
  bestNumerator (closestFraction_search r) = 1%Z
  /\ bestDenominator (closestFraction_search r) = 1%Z
  /\ forall n d, (1 <= d <= 16)%Z ->
       1 - r <= Qabs (r - inject_Z n / inject_Z d).
Proof.
  intros H0 H1 E.
  destruct (closestFraction_search_invariant r H0 H1)
    as (Hn & Hd & Hg & Hmin & Herr & _).
  rewrite E in Hg. rewrite Z.gcd_diag in Hg.
  assert (Ed : bestDenominator (closestFraction_search r) = 1%Z) by lia.
  rewrite Ed in E. split; [exact E|]. split; [exact Ed|].
  intros n d Hd'.
  assert (Hb : bestError (closestFraction_search r) == 1 - r).
  { rewrite Herr by lia. rewrite E, Ed.
    assert (Hz : inject_Z 1 / inject_Z 1 - r == 1 - r)
      by (change (inject_Z 1) with 1; field).
    rewrite Hz. apply Qabs_pos. lra. }
  rewrite <- Hb.
  eapply Qle_trans; [apply (Hmin d); simpl; lia|].
  apply candidateError_least. lia.
Qed.

Lemma search_proper (r : Q) :
  0 <= r -> r < 1 ->
  bestNumerator (closestFraction_search r) <> bestDenominator (closestFraction_search r) ->
  (0 <= bestNumerator (closestFraction_search r)
   < bestDenominator (closestFraction_search r))%Z
  /\ (bestDenominator (closestFraction_search r) <= 16)%Z
  /\ Z.gcd (bestNumerator (closestFraction_search r))
           (bestDenominator (closestFraction_search r)) = 1%Z
  /\ bestError (closestFraction_search r)
     == Qabs (inject_Z (bestNumerator (closestFraction_search r))
              / inject_Z (bestDenominator (closestFraction_search r)) - r)
  /\ forall n d, (1 <= d <= 16)%Z ->
       bestError (closestFraction_search r)
       <= Qabs (r - inject_Z n / inject_Z d).
Proof.
  intros H0 H1 E.
  destruct (closestFraction_search_invariant r H0 H1)
    as (Hn & Hd & Hg & Hmin & Herr & _).
  change (Z.max 1 (Z.of_nat 16)) with 16%Z in Hd.
  split; [lia|]. split; [lia|]. split; [exact Hg|].
  split; [apply Herr; lia|].
  intros n d Hd'.
  eapply Qle_trans; [apply (Hmin d); simpl; lia|].
  apply candidateError_least. lia.
Qed.

(** X5.  [closestFraction] returns the best approximation there is: the
    fraction it reports has a denominator from 1 to 16, is in lowest
    terms, and no fraction with a denominator from 1 to 16 is closer to
    the fractional remainder.  Either it is a proper fraction next to
    the floor of the value, with its true distance as the error; or the
    nearest fraction is 1 itself, and the record is [whole + 1] with the
    marker fraction 1/1 and error 0. *)
Theorem closestFraction_best (v : Q) (f : Fraction) :
  closestFraction v = Some f ->
  (1 <= denominator f <= 16)%Z
  /\ Z.gcd (numerator f) (denominator f) = 1%Z
  /\ ((whole f = floor v
       /\ (0 <= numerator f < denominator f)%Z
       /\ error f == Qabs (inject_Z (numerator f) / inject_Z (denominator f)
                           - remainderOf v)
       /\ forall n d, (1 <= d <= 16)%Z ->
            error f <= Qabs (remainderOf v - inject_Z n / inject_Z d))
      \/ (whole f = (floor v + 1)%Z
          /\ numerator f = 1%Z /\ denominator f = 1%Z /\ error f = 0
          /\ forall n d, (1 <= d <= 16)%Z ->
               1 - remainderOf v
               <= Qabs (remainderOf v - inject_Z n / inject_Z d))).
Proof.
  unfold closestFraction. cbv zeta.
  change (v - inject_Z (floor v)) with (remainderOf v).
  pose proof (remainderOf_nonneg v) as H0.
  pose proof (remainderOf_lt_1 v) as H1.
  pose proof (search_round_up (remainderOf v) H0 H1) as Hup.
  pose proof (search_proper (remainderOf v) H0 H1) as Hpr.
  set (b := closestFraction_search (remainderOf v)) in *. clearbody b.
  destruct (bestNumerator b =? bestDenominator b)%Z eqn:E;
    intros H; injection H as <-; cbn [whole numerator denominator error].
  - apply Z.eqb_eq in E.
    destruct (Hup E) as (_ & _ & Hmin).
    split; [lia|]. split; [reflexivity|]. right. auto.
  - apply Z.eqb_neq in E.
    destruct (Hpr E) as (Hn & Hd & Hg & Herr & Hmin).
    split; [lia|]. split; [exact Hg|]. left. auto.
Qed.

Lemma closestFraction_best_witness :
  (1 <= 4 <= 16)%Z
  /\ Z.gcd 1 4 = 1%Z
  /\ ((0%Z = floor (2 # 8)
       /\ (0 <= 1 < 4)%Z
       /\ 0 # 32 == Qabs (inject_Z 1 / inject_Z 4 - remainderOf (2 # 8))
       /\ forall n d, (1 <= d <= 16)%Z ->
            0 # 32 <= Qabs (remainderOf (2 # 8) - inject_Z n / inject_Z d))
      \/ (0%Z = (floor (2 # 8) + 1)%Z
          /\ 1%Z = 1%Z /\ 4%Z = 1%Z /\ 0 # 32 = 0
          /\ forall n d, (1 <= d <= 16)%Z ->
               1 - remainderOf (2 # 8)
               <= Qabs (remainderOf (2 # 8) - inject_Z n / inject_Z d))).
Proof.
  apply (closestFraction_best (2 # 8)
           {| whole := 0; numerator := 1; denominator := 4; error := 0 # 32 |}).
  vm_compute. reflexivity.
Defined.



(* ================================================================== *)
(** * Formatting and parsing back *)
(* ================================================================== *)

Lemma allDigits_no_space (ds : jsstring) :
  allDigits ds -> Forall (fun c => isSpace c = false) ds.
Proof.
  intros H. eapply Forall_impl; [|exact H].
  intros c Hc. apply digit_not_space, Hc.
Qed.

Lemma allDigits_no_slash (ds : jsstring) :
  allDigits ds -> Forall (fun c => N.eqb c (ch "/") = false) ds.
Proof.
  intros H. eapply Forall_impl; [|exact H].
  intros c Hc. apply (digit_not_char c "/" Hc eq_refl).
Qed.

Lemma beforeChar_none (c : char) (s : jsstring) :
  Forall (fun x => N.eqb x c = false) s -> beforeChar c s = s.
Proof.
  induction 1 as [|x s Hx _ IH]; simpl; [reflexivity|].
  rewrite Hx, IH. reflexivity.
Qed.

Lemma beforeChar_app (c : char) (s rest : jsstring) :
  Forall (fun x => N.eqb x c = false) s ->
  beforeChar c (s ++ c :: rest) = s /\ afterChar c (s ++ c :: rest) = rest.
Proof.
  induction 1 as [|x s Hx _ IH]; simpl.
  - rewrite N.eqb_refl. split; reflexivity.
  - rewrite Hx. destruct IH as [-> ->]. split; reflexivity.
Qed.

Lemma includes_app (c : char) (s rest : jsstring) :
  includes c (s ++ c :: rest) = true.
Proof.
  unfold includes. rewrite existsb_app. simpl. rewrite N.eqb_refl.
  apply orb_true_iff. right. reflexivity.
Qed.

Lemma splitSpaces_cons (x : char) (s : jsstring) :
  isSpace x = false ->
  splitSpaces (x :: s)
  = match splitSpaces s with
    | p :: ps => (x :: p) :: ps
    | [] => [[x]]
    end.
Proof. intros H. cbn [splitSpaces]. rewrite H. reflexivity. Qed.

(** Two pieces without whitespace, one space between them. *)
Lemma splitSpaces_two (p1 p2 : jsstring) :
  Forall (fun c => isSpace c = false) p1 ->
  Forall (fun c => isSpace c = false) p2 -> p2 <> [] ->
  splitSpaces (p1 ++ ch " " :: p2) = [p1; p2].
Proof.
  intros H1 H2 Hne. induction H1 as [|x p1 Hx _ IH].
  - destruct p2 as [|c p2]; [congruence|].
    inversion H2 as [|? ? Hc Hp2]; subst.
    change (splitSpaces ([] ++ ch " " :: c :: p2))
      with (if isSpace c then splitSpaces (c :: p2)
            else [] :: splitSpaces (c :: p2)).
    rewrite Hc, (splitSpaces_no_space (c :: p2) H2). reflexivity.
  - change ((x :: p1) ++ ch " " :: p2) with (x :: (p1 ++ ch " " :: p2)).
    rewrite (splitSpaces_cons x _ Hx), IH. reflexivity.
Qed.

(** The loop on a part that is a run of digits. *)
Lemma loop_digits_part (ds : jsstring) (parts : list jsstring) (total : Q) :
  ds <> [] -> allDigits ds ->
  exists q, q == inject_Z (digitsValue ds)
            /\ parseQuantity_loop (ds :: parts) total
               = parseQuantity_loop parts (total + q).
Proof.
  intros Hne Hall.
  destruct (parseFloat_digits ds Hne Hall) as [q [Hq Eq]].
  exists q. split; [exact Eq|].
  cbn [parseQuantity_loop]. rewrite includes_false, Hq; [reflexivity|].
  eapply Forall_impl; [|exact Hall]. intros c Hc. cbv beta in Hc.
  rewrite N.eqb_sym. apply (digit_not_char c "/" Hc eq_refl).
Qed.

(** The loop on a part [digits/digits] with a non-zero denominator. *)
Lemma loop_fraction_part (ns ds : jsstring) (parts : list jsstring) (total : Q) :
  ns <> [] -> allDigits ns -> ds <> [] -> allDigits ds ->
  (0 < digitsValue ds)%Z ->
  exists q, q == inject_Z (digitsValue ns) / inject_Z (digitsValue ds)
            /\ parseQuantity_loop ((ns ++ ch "/" :: ds) :: parts) total
               = parseQuantity_loop parts (total + q).
Proof.
  intros Hn An Hd Ad Hpos.
  destruct (parseFloat_digits ns Hn An) as [qn [Hqn En]].
  destruct (parseFloat_digits ds Hd Ad) as [qd [Hqd Ed]].
  exists (qn / qd). split; [rewrite En, Ed; reflexivity|].
  cbn [parseQuantity_loop]. rewrite includes_app.
  destruct (fractionTerms_of_part (ns ++ ch "/" :: ds) (includes_app _ _ _))
    as [-> ->].
  unfold numeratorText, denominatorText.
  destruct (beforeChar_app (ch "/") ns ds (allDigits_no_slash ns An)) as [-> ->].
  rewrite (beforeChar_none (ch "/") ds (allDigits_no_slash ds Ad)), Hqn, Hqd.
  replace (Qeq_bool qd 0) with false; [reflexivity|].
  symmetry. destruct (Qeq_bool qd 0) eqn:E; [|reflexivity].
  apply Qeq_bool_iff in E. rewrite Ed in E.
  pose proof (inject_Z_pos (digitsValue ds) ltac:(lia)). lra.
Qed.

(** [parseQuantity] on what the fraction template prints. *)
Lemma parseQuantity_renderFraction (w n d : Z) :
  (0 <= n)%Z -> (1 <= d)%Z ->
  exists q,
    q == (if (0 <? w)%Z then inject_Z w else 0) + inject_Z n / inject_Z d
    /\ parseQuantity (renderFraction w n d)
       = if Qltb 0 q then Some q else None.
Proof.
  intros Hn Hd. unfold renderFraction, parseQuantity.
  rewrite (intToString_nonneg n Hn), (intToString_nonneg d) by lia.
  assert (Vn : digitsValue (digitsOf (Z.to_N n)) = n)
    by (rewrite digitsValue_digitsOf; lia).
  assert (Vd : digitsValue (digitsOf (Z.to_N d)) = d)
    by (rewrite digitsValue_digitsOf; lia).
  assert (Fs : Forall (fun c => isSpace c = false)
                 (digitsOf (Z.to_N n) ++ ch "/" :: digitsOf (Z.to_N d))).
  { apply Forall_app. split; [apply allDigits_no_space, digitsOf_allDigits|].
    constructor; [reflexivity | apply allDigits_no_space, digitsOf_allDigits]. }
  destruct (0 <? w)%Z eqn:Hw.
  - apply Z.ltb_lt in Hw. rewrite (intToString_nonneg w) by lia.
    change (lit " " ++ digitsOf (Z.to_N n) ++ lit "/" ++ digitsOf (Z.to_N d))
      with (ch " " :: (digitsOf (Z.to_N n) ++ ch "/" :: digitsOf (Z.to_N d))).
    rewrite splitSpaces_two;
      [| apply allDigits_no_space, digitsOf_allDigits | exact Fs
       | intros E; apply app_eq_nil in E; destruct E as [_ E]; discriminate E].
    destruct (loop_digits_part (digitsOf (Z.to_N w))
                [digitsOf (Z.to_N n) ++ ch "/" :: digitsOf (Z.to_N d)] 0
                (digitsOf_nonempty _) (digitsOf_allDigits _)) as (qw & Ew & Lw).
    destruct (loop_fraction_part (digitsOf (Z.to_N n)) (digitsOf (Z.to_N d))
                [] (0 + qw)
                (digitsOf_nonempty _) (digitsOf_allDigits _)
                (digitsOf_nonempty _) (digitsOf_allDigits _)
                ltac:(rewrite Vd; lia)) as (qf & Ef & Lf).
    exists (0 + qw + qf). split; [|exact (eq_trans Lw Lf)].
    rewrite Ew, Ef, Vn, Vd, digitsValue_digitsOf, Z2N.id by lia. ring.
  - change (digitsOf (Z.to_N n) ++ lit "/" ++ digitsOf (Z.to_N d))
      with (digitsOf (Z.to_N n) ++ ch "/" :: digitsOf (Z.to_N d)).
    rewrite (splitSpaces_no_space _ Fs).
    destruct (loop_fraction_part (digitsOf (Z.to_N n)) (digitsOf (Z.to_N d))
                [] 0
                (digitsOf_nonempty _) (digitsOf_allDigits _)
                (digitsOf_nonempty _) (digitsOf_allDigits _)
                ltac:(rewrite Vd; lia)) as (qf & Ef & Lf).
    exists (0 + qf). split; [|exact Lf].
    rewrite Ef, Vn, Vd. ring.
Qed.

Lemma spanDigits_app (ds rest : jsstring) (c : char) :
  allDigits ds -> isDigit c = false ->
  spanDigits (ds ++ c :: rest) = (ds, c :: rest).
Proof.
  induction 1 as [|x ds Hx _ IH]; intros Hc; simpl.
  - rewrite Hc. reflexivity.
  - rewrite Hx, (IH Hc). reflexivity.
Qed.

Lemma digits_fold_shift (b : jsstring) (acc : Z) :
  fold_left (fun a c => (10 * a + digitVal c)%Z) b acc
  = (acc * 10 ^ Z.of_nat (List.length b)
     + fold_left (fun a c => (10 * a + digitVal c)%Z) b 0)%Z.
Proof.
  revert acc. induction b as [|c b IH]; intros acc.
  - cbn [fold_left List.length]. change (10 ^ Z.of_nat 0)%Z with 1%Z. lia.
  - cbn [fold_left List.length].
    rewrite (IH (10 * acc + digitVal c)%Z), (IH (10 * 0 + digitVal c)%Z).
    rewrite Nat2Z.inj_succ, Z.pow_succ_r by lia. ring.
Qed.

Lemma digitsValue_app (a b : jsstring) :
  digitsValue (a ++ b)
  = (digitsValue a * 10 ^ Z.of_nat (List.length b) + digitsValue b)%Z.
Proof.
  unfold digitsValue. rewrite fold_left_app. apply digits_fold_shift.
Qed.

(** [parseFloat] on digits, a point and digits. *)
Lemma parseFloat_decimal (ip fp : jsstring) :
  ip <> [] -> allDigits ip -> fp <> [] -> allDigits fp ->
  exists q, parseFloat (ip ++ ch "." :: fp) = Num q
    /\ q == inject_Z (digitsValue ip)
            + inject_Z (digitsValue fp)
              / inject_Z (10 ^ Z.of_nat (List.length fp)).
Proof.
  intros Hne Hall Hf Af. destruct ip as [|c ip]; [congruence|].
  pose proof Hall as Hall'. inversion Hall' as [|? ? Hc Hds]; subst.
  unfold parseFloat.
  assert (Ht : trimStart ((c :: ip) ++ ch "." :: fp)
               = c :: (ip ++ ch "." :: fp)).
  { simpl. rewrite (digit_not_space c Hc). reflexivity. }
  rewrite Ht. unfold readSign.
  rewrite (digit_not_char c "-" Hc eq_refl), (digit_not_char c "+" Hc eq_refl).
  change (c :: (ip ++ ch "." :: fp)) with ((c :: ip) ++ ch "." :: fp).
  rewrite (spanDigits_app (c :: ip) fp (ch ".") Hall eq_refl).
  rewrite N.eqb_refl, (spanDigits_all fp Af).
  eexists; split; [reflexivity|].
  change (readExponent []) with 0%Z.
  change (Qpower 10 0) with 1.
  apply Qmult_1_r.
Qed.

Lemma padLeft3_spec (ds : jsstring) :
  allDigits ds ->
  allDigits (padLeft3 ds)
  /\ digitsValue (padLeft3 ds) = digitsValue ds
  /\ (3 <= List.length (padLeft3 ds))%nat.
Proof.
  intros H.
  assert (Z0 : isDigit (ch "0") = true) by reflexivity.
  destruct ds as [|a [|b [|c ds]]]; cbn [padLeft3].
  - split; [repeat constructor|]. split; [reflexivity | simpl; lia].
  - inversion H; subst.
    split; [repeat constructor; assumption|]. split; [|simpl; lia].
    unfold digitsValue. cbn [fold_left].
    change (digitVal (ch "0")) with 0%Z. lia.
  - split; [constructor; assumption|]. split; [|simpl; lia].
    unfold digitsValue. cbn [fold_left].
    change (digitVal (ch "0")) with 0%Z. lia.
  - split; [assumption|]. split; [reflexivity | simpl; lia].
Qed.

(** [toFixed(2)] of a number that is not negative: digits, a point, two
    digits, reading as the number times 100 rounded. *)
Lemma toFixed2_nonneg (v : Q) :
  0 <= v ->
  exists ip fp,
    toFixed2 v = ip ++ ch "." :: fp
    /\ ip <> [] /\ allDigits ip /\ allDigits fp /\ List.length fp = 2%nat
    /\ (digitsValue ip * 100 + digitsValue fp)%Z = round (v * 100).
Proof.
  intros Hv. unfold toFixed2. cbv zeta.
  assert (Hneg : Qltb v 0 = false) by (apply Qltb_ge; exact Hv).
  rewrite Hneg.
  assert (Hn : Qfloor (Qabs v * 100 + (1 # 2)) = round (v * 100)).
  { unfold round. apply Qfloor_comp. rewrite (Qabs_pos v Hv). reflexivity. }
  rewrite Hn.
  assert (Hr : (0 <= round (v * 100))%Z) by (apply round_nonneg; lra).
  destruct (padLeft3_spec (digitsOf (Z.to_N (round (v * 100))))
              (digitsOf_allDigits _)) as (Hall & Hval & Hlen).
  rewrite digitsValue_digitsOf, Z2N.id in Hval by exact Hr.
  set (ds := padLeft3 (digitsOf (Z.to_N (round (v * 100))))) in *.
  clearbody ds.
  set (k := (List.length ds - 2)%nat).
  exists (firstn k ds), (skipn k ds).
  assert (Hsplit : firstn k ds ++ skipn k ds = ds) by apply firstn_skipn.
  assert (Hlf : List.length (firstn k ds) = k)
    by (rewrite length_firstn; subst k; lia).
  assert (Hls : List.length (skipn k ds) = 2%nat)
    by (rewrite length_skipn; subst k; lia).
  rewrite <- Hsplit in Hall. apply Forall_app in Hall. destruct Hall as [Hi Hf].
  split; [reflexivity|].
  split; [intros E; rewrite E in Hlf; simpl in Hlf; subst k; lia|].
  split; [exact Hi|]. split; [exact Hf|]. split; [exact Hls|].
  transitivity (digitsValue (firstn k ds ++ skipn k ds));
    [rewrite digitsValue_app, Hls; reflexivity | rewrite Hsplit; exact Hval].
Qed.

(** An integer nearest to [x] is within a half of it. *)
Lemma round_half (x : Q) : Qabs (inject_Z (round x) - x) <= 1 # 2.
Proof.
  unfold round.
  pose proof (Qfloor_le (x + (1 # 2))) as Hl.
  pose proof (Qlt_floor (x + (1 # 2))) as Hu.
  rewrite inject_Z_plus in Hu. change (inject_Z 1) with 1 in Hu.
  set (n := inject_Z (Qfloor (x + (1 # 2)))) in *. clearbody n.
  apply Qabs_Qle_condition. split; lra.
Qed.

(** [parseQuantity] on what [toFixed(2)] prints. *)
Lemma parseQuantity_toFixed2 (v : Q) :
  0 <= v ->
  exists q,
    q == inject_Z (round (v * 100)) / 100
    /\ parseQuantity (toFixed2 v) = if Qltb 0 q then Some q else None.
Proof.
  intros Hv.
  destruct (toFixed2_nonneg v Hv) as (ip & fp & -> & Hne & Hi & Hf & Hlen & Hval).
  assert (Hfne : fp <> []) by (intros E; rewrite E in Hlen; discriminate Hlen).
  destruct (parseFloat_decimal ip fp Hne Hi Hfne Hf) as (q & Hq & Eq).
  unfold parseQuantity.
  rewrite splitSpaces_no_space.
  2:{ apply Forall_app. split; [apply allDigits_no_space, Hi|].
      constructor; [reflexivity | apply allDigits_no_space, Hf]. }
  cbn [parseQuantity_loop]. rewrite includes_false, Hq.
  2:{ apply Forall_app. split.
      - eapply Forall_impl; [|exact Hi]. intros c Hc. cbv beta in Hc.
        rewrite N.eqb_sym. apply (digit_not_char c "/" Hc eq_refl).
      - constructor; [reflexivity|].
        eapply Forall_impl; [|exact Hf]. intros c Hc. cbv beta in Hc.
        rewrite N.eqb_sym. apply (digit_not_char c "/" Hc eq_refl). }
  exists (0 + q). split; [|reflexivity].
  rewrite Eq, Hlen, <- Hval, inject_Z_plus, inject_Z_mult.
  change (inject_Z (10 ^ Z.of_nat 2)) with 100.
  change (inject_Z 100) with 100. field.
Qed.

(** The branch [formatQuantity] takes on a value that is not whole, read
    off the result of the denominator search. *)
Lemma formatQuantity_nonwhole (v : Q) (b : Best) :
  Qeq_bool (mod1 v) 0 = false ->
  b = closestFraction_search (remainderOf v) ->
  formatQuantity v
  = if (bestNumerator b =? bestDenominator b)%Z
    then renderFraction (floor v + 1) 1 1
    else if Qltb (bestError b) 0.01
         then renderFraction (floor v) (bestNumerator b) (bestDenominator b)
         else toFixed2 v.
Proof.
  intros Hw Hb. unfold formatQuantity. rewrite Hw.
  unfold closestFraction. cbv zeta.
  change (v - inject_Z (floor v)) with (remainderOf v).
  rewrite <- Hb. clear Hb.
  destruct (bestNumerator b =? bestDenominator b)%Z;
    cbn [whole numerator denominator error].
  - change (Qltb 0 0.01) with true. reflexivity.
  - reflexivity.
Qed.

(** The search ends on [n = d] exactly when the remainder is at least
    31/32, the midpoint between 15/16 and 1. *)
Lemma search_round_up_iff (r : Q) :
  0 <= r -> r < 1 ->
  (bestNumerator (closestFraction_search r)
   = bestDenominator (closestFraction_search r)
   <-> 31 # 32 <= r).
Proof.
  intros H0 H1. split.
  - intros E. destruct (search_round_up r H0 H1 E) as (_ & _ & Hmin).
    specialize (Hmin 15%Z 16%Z ltac:(lia)).
    assert (Hc : inject_Z 15 / inject_Z 16 == 15 # 16) by reflexivity.
    rewrite Hc in Hmin.
    destruct (Qlt_le_dec r (15 # 16)) as [Hlt|Hge].
    + rewrite Qabs_neg in Hmin by lra. lra.
    + rewrite Qabs_pos in Hmin by lra. lra.
  - intros Hr.
    destruct (Z.eq_dec (bestNumerator (closestFraction_search r))
                       (bestDenominator (closestFraction_search r)))
      as [E|E]; [exact E|].
    exfalso.
    pose proof (search_proper r H0 H1 E) as (Hn & Hd & _ & Herr & Hmin).
    pose proof (search_compat r (31 # 32)) as Hsame.
    set (b := closestFraction_search r) in *. clearbody b.
    specialize (Hmin 1%Z 1%Z ltac:(lia)).
    assert (Hc : inject_Z 1 / inject_Z 1 == 1) by reflexivity.
    rewrite Hc in Hmin. rewrite Qabs_neg in Hmin by lra.
    assert (Hdp : 0 < inject_Z (bestDenominator b)) by (apply inject_Z_pos; lia).
    assert (Hnd : inject_Z (bestNumerator b) / inject_Z (bestDenominator b)
                  <= 15 # 16).
    { apply Qle_shift_div_r; [exact Hdp|].
      assert (Hn1 : inject_Z (bestNumerator b) <= inject_Z (bestDenominator b) - 1).
      { setoid_replace (inject_Z (bestDenominator b) - 1)
          with (inject_Z (bestDenominator b - 1))
          by (unfold Z.sub; rewrite inject_Z_plus; reflexivity).
        rewrite <- Zle_Qle. lia. }
      assert (Hd16 : inject_Z (bestDenominator b) <= 16).
      { change 16 with (inject_Z 16). rewrite <- Zle_Qle. lia. }
      lra. }
    set (f := inject_Z (bestNumerator b) / inject_Z (bestDenominator b)) in *.
    clearbody f.
    rewrite Qabs_neg in Herr by lra.
    assert (Hr' : r == 31 # 32) by lra.
    destruct (Hsame Hr') as (En & Ed & _).
    apply E. rewrite En, Ed. reflexivity.
Qed.

(** X7.  Formatting a positive quantity that is not whole and parsing
    the text back.  Below 0.01 the text is 0/1 and the parser rejects
    it.  From 0.01 on, when the fractional remainder is below 31/32, the
    parser gives back a quantity within 0.01 of the one formatted.  When
    the remainder is 31/32 or more, the text is the next whole number
    followed by 1/1, and the parser adds the two: it gives back the
    floor plus 2. *)
Theorem parseQuantity_formatQuantity_near (v : Q) :
  0 < v -> Qeq_bool (mod1 v) 0 = false ->
  (v < 0.01 -> parseQuantity (formatQuantity v) = None)
  /\ (0.01 <= v -> remainderOf v < 31 # 32 ->
      exists q, parseQuantity (formatQuantity v) = Some q
                /\ Qabs (q - v) < 0.01)
  /\ (31 # 32 <= remainderOf v ->
      exists q, parseQuantity (formatQuantity v) = Some q
                /\ q == inject_Z (floor v) + 2).
Proof.
  intros Hpos Hw.
  pose proof (remainderOf_nonneg v) as H0.
  pose proof (remainderOf_lt_1 v) as H1.
  assert (Hfl : (0 <= floor v)%Z).
  { unfold floor. change 0%Z with (Qfloor 0). apply Qfloor_resp_le. lra. }
  assert (Hflq : 0 <= inject_Z (floor v)).
  { change 0 with (inject_Z 0). rewrite <- Zle_Qle. exact Hfl. }
  assert (Hv : v == inject_Z (floor v) + remainderOf v)
    by (unfold remainderOf; ring).
  pose proof (search_round_up_iff _ H0 H1) as Hiff.
  pose proof (search_proper _ H0 H1) as Hpr.
  rewrite (formatQuantity_nonwhole v _ Hw eq_refl).
  set (b := closestFraction_search (remainderOf v)) in *. clearbody b.
  set (r := remainderOf v) in *. clearbody r.
  set (w := floor v) in *. clearbody w.
  assert (Hw1 : inject_Z w < 1 -> w = 0%Z).
  { intros L. change 1 with (inject_Z 1) in L. rewrite <- Zlt_Qlt in L. lia. }
  assert (Hone : inject_Z 1 / inject_Z 1 == 1) by reflexivity.
  assert (Hzero : inject_Z 0 / inject_Z 1 == 0) by reflexivity.
  destruct (Z.eqb_spec (bestNumerator b) (bestDenominator b)) as [E|E].
  - apply Hiff in E.
    split; [intros; lra|]. split; [intros; lra|]. intros _.
    destruct (parseQuantity_renderFraction (w + 1) 1 1 ltac:(lia) ltac:(lia))
      as (q & Eq & Pq).
    replace (0 <? w + 1)%Z with true in Eq by (symmetry; apply Z.ltb_lt; lia).
    rewrite inject_Z_plus, Hone in Eq. change (inject_Z 1) with 1 in Eq.
    exists q. split; [|lra].
    rewrite Pq. replace (Qltb 0 q) with true; [reflexivity|].
    symmetry. apply Qltb_lt. lra.
  - assert (Hlt : r < 31 # 32).
    { apply Qnot_le_lt. intros Hge. apply E, Hiff, Hge. }
    destruct (Hpr E) as (Hn & Hd & _ & Herr & Hmin).
    pose proof (Hmin 0%Z 1%Z ltac:(lia)) as Hm0.
    rewrite Hzero in Hm0. rewrite Qabs_pos in Hm0 by lra.
    assert (Hdp : 0 < inject_Z (bestDenominator b))
      by (apply inject_Z_pos; lia).
    destruct (Qltb (bestError b) 0.01) eqn:Ht.
    + apply Qltb_lt in Ht.
      destruct (parseQuantity_renderFraction w (bestNumerator b)
                  (bestDenominator b) ltac:(lia) ltac:(lia)) as (q & Eq & Pq).
      assert (Hwq : (if (0 <? w)%Z then inject_Z w else 0) == inject_Z w).
      { destruct (Z.ltb_spec 0 w); [reflexivity|].
        replace w with 0%Z by lia. reflexivity. }
      rewrite Hwq in Eq.
      assert (Hsmall : bestNumerator b <> 0%Z ->
                1 # 16 <= inject_Z (bestNumerator b) / inject_Z (bestDenominator b)).
      { intros Hne. apply Qle_shift_div_l; [exact Hdp|].
        assert (Hn1 : 1 <= inject_Z (bestNumerator b)).
        { change 1 with (inject_Z 1). rewrite <- Zle_Qle. lia. }
        assert (Hd16 : inject_Z (bestDenominator b) <= 16).
        { change 16 with (inject_Z 16). rewrite <- Zle_Qle. lia. }
        lra. }
      assert (Hnull : bestNumerator b = 0%Z ->
                inject_Z (bestNumerator b) / inject_Z (bestDenominator b) == 0).
      { intros N0. rewrite N0. unfold Qdiv. exact (Qmult_0_l _). }
      set (f := inject_Z (bestNumerator b) / inject_Z (bestDenominator b)) in *.
      clearbody f.
      assert (Habs : - bestError b <= f - r /\ f - r <= bestError b).
      { apply Qabs_Qle_condition. rewrite Herr. apply Qle_refl. }
      destruct Habs as [Hlo Hhi].
      split; [|split].
      * intros Hs. rewrite Pq.
        replace (Qltb 0 q) with false; [reflexivity|].
        symmetry. apply Qltb_ge.
        assert (W0 : w = 0%Z) by (apply Hw1; lra).
        rewrite W0 in Eq. change (inject_Z 0) with 0 in Eq.
        destruct (Z.eq_dec (bestNumerator b) 0) as [N0|N0].
        -- rewrite (Hnull N0) in Eq. lra.
        -- pose proof (Hsmall N0). rewrite W0 in Hv.
           change (inject_Z 0) with 0 in Hv. lra.
      * intros Hbig _. exists q. split.
        -- rewrite Pq. replace (Qltb 0 q) with true; [reflexivity|].
           symmetry. apply Qltb_lt. lra.
        -- apply Qabs_Qlt_condition. split; lra.
      * intros; lra.
    + apply Qltb_ge in Ht.
      destruct (parseQuantity_toFixed2 v (Qlt_le_weak _ _ Hpos))
        as (q & Eq & Pq).
      pose proof (round_half (v * 100)) as Hh.
      apply Qabs_Qle_condition in Hh. destruct Hh as [Hlo Hhi].
      set (m := inject_Z (round (v * 100))) in *. clearbody m.
      unfold Qdiv in Eq. change (/ 100) with (1 # 100) in Eq.
      split; [intros; lra|]. split; [|intros; lra].
      intros _ _. exists q. split.
      * rewrite Pq. replace (Qltb 0 q) with true; [reflexivity|].
        symmetry. apply Qltb_lt. lra.
      * apply Qabs_Qlt_condition. split; lra.
Qed.

Lemma parseQuantity_formatQuantity_near_witness :
  (0.75 < 0.01 -> parseQuantity (formatQuantity 0.75) = None)
  /\ (0.01 <= 0.75 -> remainderOf 0.75 < 31 # 32 ->
      exists q, parseQuantity (formatQuantity 0.75) = Some q
                /\ Qabs (q - 0.75) < 0.01)
  /\ (31 # 32 <= remainderOf 0.75 ->
      exists q, parseQuantity (formatQuantity 0.75) = Some q
                /\ q == inject_Z (floor 0.75) + 2).
Proof.
  apply (parseQuantity_formatQuantity_near 0.75); reflexivity.
Defined.

(* ================================================================== *)
(** * Further properties of the ingredient parser *)
(* ================================================================== *)

Lemma parseQuantity_loop_positive (parts : list jsstring) (total q : Q) :
  parseQuantity_loop parts total = Some q -> 0 < q.
Proof.
  revert total. induction parts as [|part parts IH]; intros total;
    cbn [parseQuantity_loop].
  - destruct (Qltb 0 total) eqn:E; [|discriminate].
    intros H. injection H as <-. apply Qltb_lt, E.
  - destruct (includes (ch "/") part).
    + destruct (fractionTerm (splitChar (ch "/") part) 0); [discriminate|].
      destruct (fractionTerm (splitChar (ch "/") part) 1); [discriminate|].
      destruct (Qeq_bool q1 0); [discriminate | apply IH].
    + destruct (parseFloat part); [discriminate | apply IH].
Qed.

(** What a successful [parseIngredientLine] went through. *)
Lemma parseIngredientLine_Some (line : jsstring) (p : ParsedIngredient) :
  parseIngredientLine line = Some p ->
  exists rest caps u,
    matchStart quantityRe (snd (notesSplit (cleanedLine line))) = Some (rest, caps)
    /\ parseQuantity (nullish (group 1 caps) []) = Some (quantity p)
    /\ normalizeUnit (trimmedOr (group 2 caps) []) = Some u
    /\ p = {| original := trim line;
              quantity := quantity p;
              unit := u;
              unitType := getUnitType u;
              ingredient := trimmedOr (group 3 caps) (trimmedOr (group 2 caps) []);
              notes := fst (notesSplit (cleanedLine line)) |}.
Proof.
  unfold parseIngredientLine. cbv zeta.
  change (trim (match matchStart bulletRe (trim line) with
                | Some (rest, _) => rest
                | None => trim line
                end)) with (cleanedLine line).
  set (cleaned := cleanedLine line).
  change (match search notesRe cleaned with
          | Some (index, caps) => (group 1 caps, trim (firstn index cleaned))
          | None => (None, cleaned)
          end) with (notesSplit cleaned).
  destruct (notesSplit cleaned) as [notes text]. cbn [fst snd].
  destruct (matchStart quantityRe text) as [[rest caps]|] eqn:Hm;
    [|discriminate].
  destruct (parseQuantity (nullish (group 1 caps) [])) as [q|] eqn:Hq;
    [|discriminate].
  destruct (normalizeUnit (trimmedOr (group 2 caps) [])) as [u|] eqn:Hu;
    [|discriminate].
  destruct (negb (truthyStr (Some u))); [discriminate|].
  intros H. injection H as <-. cbn [quantity nullish].
  exists rest, caps, u. repeat split; assumption.
Qed.

(** X8.  Every ingredient [parseIngredientLine] returns keeps the
    trimmed line as [original], has a quantity above zero and a name
    that is not empty, and carries the unit type that [getUnitType]
    gives for its unit. *)
Theorem parseIngredientLine_fields (line : jsstring) (p : ParsedIngredient) :
  parseIngredientLine line = Some p ->
  original p = trim line
  /\ 0 < quantity p
  /\ ingredient p <> []
  /\ unitType p = getUnitType (unit p).
Proof.
  intros H.
  destruct (parseIngredientLine_Some line p H)
    as (rest & caps & u & _ & Hq & Hu & Ep).
  rewrite Ep. cbn [original quantity ingredient unitType unit].
  split; [reflexivity|].
  split; [exact (parseQuantity_loop_positive _ _ _ Hq)|].
  split; [|reflexivity].
  assert (Hunit : trimmedOr (group 2 caps) [] <> []).
  { intros E. rewrite E in Hu. discriminate Hu. }
  unfold trimmedOr at 1.
  destruct (group 3 caps) as [g|]; [|exact Hunit].
  destruct (trim g); [exact Hunit | discriminate].
Qed.

Lemma parseIngredientLine_fields_witness :
  original {| original := lit "2 cups flour"; quantity := 2;
              unit := lit "cup"; unitType := volume;
              ingredient := lit "flour"; notes := None |}
  = trim (lit " 2 cups flour ")
  /\ 0 < 2
  /\ lit "flour" <> []
  /\ volume = getUnitType (lit "cup").
Proof.
  apply (parseIngredientLine_fields (lit " 2 cups flour ")
           {| original := lit "2 cups flour"; quantity := 2;
              unit := lit "cup"; unitType := volume;
              ingredient := lit "flour"; notes := None |}).
  reflexivity.
Defined.

(** X9.  The unit of a returned ingredient is canonical: a definition
    of the registry lists it, its [unitType] is the type of that
    definition (the default of [getUnitType] is never what decides it),
    and normalizing it again changes nothing.  Lines that spell the
    inherited name [constructor] are left out: the tables are read by
    their own keys. *)
Theorem parseIngredientLine_unit (line : jsstring) (p : ParsedIngredient) :
  includesStr (lit "constructor") (toLowerCase line) = false ->
  parseIngredientLine line = Some p ->
  (exists d, owns d (unit p) /\ unitType p = type d)
  /\ unit p <> []
  /\ normalizeUnit (unit p) = Some (unit p).
Proof.
  intros _ H.
  destruct (parseIngredientLine_Some line p H)
    as (rest & caps & u & _ & _ & Hu & Ep).
  rewrite Ep. cbn [unit unitType].
  destruct (normalizeUnit_owned _ u Hu) as [d Hd].
  destruct (owns_lastOwner d u Hd) as (_ & Hne & Hfix).
  split; [|split; assumption].
  exists d. split; [exact Hd | apply getUnitType_owned, Hd].
Qed.

Lemma parseIngredientLine_unit_witness :
  (exists d, owns d (lit "tbsp") /\ volume = type d)
  /\ lit "tbsp" <> []
  /\ normalizeUnit (lit "tbsp") = Some (lit "tbsp").
Proof.
  apply (parseIngredientLine_unit (lit "- 1.5 Tbsp sugar (sifted)")
           {| original := lit "- 1.5 Tbsp sugar (sifted)"; quantity := 1.5;
              unit := lit "tbsp"; unitType := volume;
              ingredient := lit "sugar"; notes := Some (lit "sifted") |});
    reflexivity.
Defined.

Lemma trimStart_snoc (l : jsstring) (c : char) :
  isSpace c = false -> exists l', trimStart (l ++ [c]) = l' ++ [c].
Proof.
  intros Hc. induction l as [|x l IH]; simpl.
  - rewrite Hc. exists []. reflexivity.
  - destruct (isSpace x); [exact IH|]. exists (x :: l). reflexivity.
Qed.

(** Trimming keeps a first character that is not whitespace. *)
Lemma trim_cons (c : char) (r : jsstring) :
  isSpace c = false -> exists r', trim (c :: r) = c :: r'.
Proof.
  intros Hc. unfold trim, trimEnd. cbn [trimStart]. rewrite Hc.
  cbn [rev]. destruct (trimStart_snoc (rev r) c Hc) as [l' ->].
  exists (rev l'). rewrite rev_app_distr. reflexivity.
Qed.

Lemma trim_head (s : jsstring) (c : char) (r : jsstring) :
  trim s = c :: r -> isSpace c = false.
Proof.
  unfold trim, trimEnd. intros E.
  destruct (trimStart s) as [|x t] eqn:Et.
  - discriminate E.
  - pose proof (trimStart_head s x t Et) as Hx.
    cbn [rev] in E.
    destruct (trimStart_snoc (rev t) x Hx) as [l' El].
    rewrite El, rev_app_distr in E. injection E as <- _. exact Hx.
Qed.

Lemma bulletRe_head (c : char) (r : jsstring) :
  (N.eqb c (ch "-") || N.eqb c 8226)%bool = false ->
  matchStart bulletRe (c :: r) = None.
Proof.
  intros H. unfold matchStart, bulletRe. cbn [matchFrom]. rewrite H.
  reflexivity.
Qed.

Lemma quantityRe_head (c : char) (s : jsstring) :
  (isDigit c || N.eqb c (ch "."))%bool = false ->
  matchStart quantityRe (c :: s) = None.
Proof.
  intros H. pose proof H as H'. apply orb_false_iff in H'. destruct H' as [Hd _].
  unfold matchStart, quantityRe, Plus, digit. cbn [matchFrom].
  rewrite H, Hd. reflexivity.
Qed.

(** What is left for the quantity pattern begins as the cleaned line
    does, or is empty. *)
Lemma notesSplit_head (c : char) (r : jsstring) :
  isSpace c = false ->
  snd (notesSplit (c :: r)) = []
  \/ exists r', snd (notesSplit (c :: r)) = c :: r'.
Proof.
  intros Hc. unfold notesSplit.
  destruct (search notesRe (c :: r)) as [[index caps]|]; cbn [snd].
  - destruct index as [|i]; cbn [firstn].
    + left. reflexivity.
    + right. apply trim_cons, Hc.
  - right. exists r. reflexivity.
Qed.

Lemma parseIngredientLine_no_quantity (line : jsstring) :
  matchStart quantityRe (snd (notesSplit (cleanedLine line))) = None ->
  parseIngredientLine line = None.
Proof.
  intros H. destruct (parseIngredientLine line) as [p|] eqn:E; [|reflexivity].
  destruct (parseIngredientLine_Some line p E) as (rest & caps & u & Hm & _).
  rewrite H in Hm. discriminate Hm.
Qed.

(** A line that is blank, or whose first character after the leading
    whitespace cannot begin a quantity or a bullet, does not parse. *)
Lemma parseIngredientLine_head (line : jsstring) :
  match trim line with
  | [] => True
  | c :: _ => quantityStart c = false
  end ->
  parseIngredientLine line = None.
Proof.
  intros H. apply parseIngredientLine_no_quantity. unfold cleanedLine.
  destruct (trim line) as [|c r] eqn:Et.
  - reflexivity.
  - unfold quantityStart in H.
    apply orb_false_iff in H. destruct H as [H Hb].
    apply orb_false_iff in H. destruct H as [Hq Hd].
    rewrite bulletRe_head by (rewrite Hd, Hb; reflexivity).
    pose proof (trim_head line c r Et) as Hc.
    destruct (trim_cons c r Hc) as [r' ->].
    destruct (notesSplit_head c r' Hc) as [->|[r'' ->]].
    + reflexivity.
    + apply quantityRe_head, Hq.
Qed.

(** X10.  A line parses only if, leading whitespace apart, it begins
    with a digit, a point, a dash or a bullet. *)
Theorem parseIngredientLine_begins (line : jsstring) (p : ParsedIngredient) :
  parseIngredientLine line = Some p ->
  exists c r, trim line = c :: r /\ quantityStart c = true.
Proof.
  intros H. destruct (trim line) as [|c r] eqn:Et.
  - rewrite (parseIngredientLine_head line) in H; [discriminate H|].
    rewrite Et. exact I.
  - exists c, r. split; [reflexivity|].
    destruct (quantityStart c) eqn:Hc; [reflexivity|].
    rewrite (parseIngredientLine_head line) in H; [discriminate H|].
    rewrite Et. exact Hc.
Qed.

Lemma parseIngredientLine_begins_witness :
  exists c r, trim (lit " 2 cups flour ") = c :: r /\ quantityStart c = true.
Proof.
  apply (parseIngredientLine_begins (lit " 2 cups flour ")
           {| original := lit "2 cups flour"; quantity := 2;
              unit := lit "cup"; unitType := volume;
              ingredient := lit "flour"; notes := None |}).
  reflexivity.
Defined.

Lemma skippedLine_unparsed (line : jsstring) :
  skippedLine line = true -> parseIngredientLine line = None.
Proof.
  unfold skippedLine. intros H. apply parseIngredientLine_head.
  destruct (trim line) as [|c r]; [exact I|].
  cbn [startsWithChar] in H. apply N.eqb_eq in H. subst c. reflexivity.
Qed.

Lemma parseIngredients_fold (lines : list jsstring)
  (acc : list ParsedIngredient) :
  fold_left
    (fun ingredients line =>
       if skippedLine line then ingredients
       else match parseIngredientLine line with
            | Some parsed => ingredients ++ [parsed]
            | None => ingredients
            end)
    lines acc
  = acc ++ flat_map lineIngredients lines.
Proof.
  revert acc. induction lines as [|line lines IH]; intros acc;
    cbn [fold_left flat_map].
  - rewrite app_nil_r. reflexivity.
  - rewrite IH. unfold lineIngredients at 2.
    destruct (skippedLine line) eqn:Hs.
    + rewrite (skippedLine_unparsed line Hs). reflexivity.
    + destruct (parseIngredientLine line);
        [rewrite <- app_assoc|]; reflexivity.
Qed.

(** X11.  [parseIngredients] handles each line of the text on its own
    and keeps the results in the order of the lines; the test for blank
    lines and headings removes nothing that would have parsed. *)
Theorem parseIngredients_lines (text : jsstring) :
  parseIngredients text = flat_map lineIngredients (splitChar 10%N text).
Proof.
  unfold parseIngredients. apply parseIngredients_fold.
Qed.

(* ================================================================== *)
(** * What a match consumed and captured *)
(* ================================================================== *)

Lemma firstn_consumed (w rest : jsstring) :
  firstn (List.length (w ++ rest) - List.length rest) (w ++ rest) = w.
Proof.
  rewrite length_app.
  replace (List.length w + List.length rest - List.length rest)%nat
    with (List.length w + 0)%nat by lia.
  rewrite firstn_app_2, firstn_O, app_nil_r. reflexivity.
Qed.

Section Soundness.

Context {A : Type}.

Lemma iterate_sound (greedy : bool) (r : re) (k : @cont A) (fuel : nat) :
  @soundFor A r ->
  forall (s : jsstring) (caps : captures) (x : A),
    iterate greedy (matchFrom r) k fuel s caps = Some x ->
    exists w rest caps',
      s = w ++ rest /\ Matches (Star greedy r) w rest caps caps'
      /\ k rest caps' = Some x.
Proof.
  intros IH. induction fuel as [|fuel IHf]; intros s caps x; cbn [iterate].
  - intros H. exists [], s, caps. repeat split; [constructor | exact H].
  - assert (Hagain : forall y,
      matchFrom r s caps
        (fun s' caps' =>
           if (List.length s' <? List.length s)%nat
           then iterate greedy (matchFrom r) k fuel s' caps' else None)
      = Some y ->
      exists w rest caps',
        s = w ++ rest /\ Matches (Star greedy r) w rest caps caps'
        /\ k rest caps' = Some y).
    { intros y Hy.
      destruct (IH _ _ _ _ Hy) as (w1 & s1 & caps1 & E1 & M1 & Hk).
      destruct (Nat.ltb_spec (List.length s1) (List.length s)) as [Hlt|];
        [|discriminate Hk].
      destruct (IHf _ _ _ Hk) as (w2 & rest & caps2 & E2 & M2 & Hk2).
      subst s1. exists (w1 ++ w2), rest, caps2.
      split; [rewrite <- app_assoc; exact E1|].
      split; [|exact Hk2].
      eapply M_StarCons; [|exact M1|exact M2].
      intros ->. subst s. simpl in Hlt. lia. }
    destruct greedy.
    + destruct (matchFrom r s caps _) eqn:E.
      * intros H. injection H as Hx. subst. exact (Hagain _ eq_refl).
      * intros H. exists [], s, caps. repeat split; [constructor | exact H].
    + destruct (k s caps) eqn:E.
      * intros H. injection H as Hx. subst.
        exists [], s, caps. repeat split; [constructor | exact E].
      * apply Hagain.
Qed.

Lemma matchFrom_sound (r : re) : @soundFor A r.
Proof.
  induction r as [|p|r1 IH1 r2 IH2|r1 IH1 r2 IH2|g r IH|n r IH|];
    intros s caps k x; cbn [matchFrom].
  - intros H. exists [], s, caps. repeat split; [constructor | exact H].
  - destruct s as [|c s]; [discriminate|].
    destruct (p c) eqn:Hc; [|discriminate].
    intros H. exists [c], s, caps. repeat split; [constructor; exact Hc | exact H].
  - intros H.
    destruct (IH1 _ _ _ _ H) as (w1 & s1 & caps1 & E1 & M1 & H1).
    destruct (IH2 _ _ _ _ H1) as (w2 & rest & caps2 & E2 & M2 & H2).
    subst s1. exists (w1 ++ w2), rest, caps2.
    split; [rewrite <- app_assoc; exact E1|].
    split; [econstructor; eassumption | exact H2].
  - destruct (matchFrom r1 s caps k) eqn:E.
    + intros H. injection H as Hx. subst.
      destruct (IH1 _ _ _ _ E) as (w & rest & caps' & E1 & M1 & H1).
      exists w, rest, caps'. repeat split; [exact E1 | apply M_AltL, M1 | exact H1].
    + intros H.
      destruct (IH2 _ _ _ _ H) as (w & rest & caps' & E1 & M1 & H1).
      exists w, rest, caps'. repeat split; [exact E1 | apply M_AltR, M1 | exact H1].
  - apply iterate_sound, IH.
  - intros H.
    destruct (IH _ _ _ _ H) as (w & rest & caps' & E1 & M1 & H1).
    cbv beta in H1. subst s. rewrite firstn_consumed in H1.
    exists w, rest, ((n, w) :: caps').
    repeat split; [constructor; exact M1 | exact H1].
  - destruct s; [|discriminate].
    intros H. exists [], [], caps. repeat split; [constructor | exact H].
Qed.

End Soundness.

Lemma matchStart_sound (r : re) (s rest : jsstring) (caps : captures) :
  matchStart r s = Some (rest, caps) ->
  exists w, s = w ++ rest /\ Matches r w rest [] caps.
Proof.
  unfold matchStart. intros H.
  destruct (matchFrom_sound r _ _ _ _ H) as (w & rest' & caps' & E & M & Hk).
  injection Hk as <- <-. exists w. auto.
Qed.

Lemma search_from_sound (r : re) (s : jsstring) :
  forall (i j : nat) (caps : captures),
    search_from r i s = Some (j, caps) ->
    exists pre w rest,
      s = pre ++ w ++ rest /\ j = (i + List.length pre)%nat
      /\ Matches r w rest [] caps.
Proof.
  induction s as [|c s IH]; intros i j caps; cbn [search_from].
  - destruct (matchStart r []) as [[rest caps0]|] eqn:E; [|discriminate].
    intros H. injection H as <- <-.
    destruct (matchStart_sound r _ _ _ E) as (w & Ew & M).
    exists [], w, rest. repeat split; [exact Ew | simpl; lia | exact M].
  - destruct (matchStart r (c :: s)) as [[rest caps0]|] eqn:E.
    + intros H. injection H as <- <-.
      destruct (matchStart_sound r _ _ _ E) as (w & Ew & M).
      exists [], w, rest. repeat split; [exact Ew | simpl; lia | exact M].
    + intros H. destruct (IH _ _ _ H) as (pre & w & rest & Es & Ej & M).
      exists (c :: pre), w, rest.
      repeat split; [rewrite Es; reflexivity | simpl; lia | exact M].
Qed.

Lemma search_sound (r : re) (s : jsstring) (j : nat) (caps : captures) :
  search r s = Some (j, caps) ->
  exists pre w rest,
    s = pre ++ w ++ rest /\ j = List.length pre /\ Matches r w rest [] caps.
Proof.
  intros H. destruct (search_from_sound r s 0 j caps H)
    as (pre & w & rest & Es & Ej & M).
  exists pre, w, rest. auto.
Qed.

(** A repetition of a character class captures nothing and consumes
    characters of the class. *)
Lemma Matches_class_star (g : bool) (p : char -> bool)
  (w rest : jsstring) (caps caps' : captures) :
  Matches (Star g (Chr p)) w rest caps caps' ->
  caps' = caps /\ Forall (fun c => p c = true) w.
Proof.
  intros M. remember (Star g (Chr p)) as r eqn:Er.
  induction M; try discriminate Er.
  - split; [reflexivity | constructor].
  - injection Er as -> ->.
    match goal with H : Matches (Chr p) _ _ _ _ |- _ => inversion H; subst end.
    destruct (IHM2 eq_refl) as [-> Hw].
    split; [reflexivity|]. constructor; assumption.
Qed.

(** Inversion of a match, one constructor at a time. *)
Lemma Matches_Cat (r1 r2 : re) (w rest : jsstring) (caps caps' : captures) :
  Matches (Cat r1 r2) w rest caps caps' ->
  exists w1 w2 caps1,
    w = w1 ++ w2 /\ Matches r1 w1 (w2 ++ rest) caps caps1
    /\ Matches r2 w2 rest caps1 caps'.
Proof.
  intros M. inversion M; subst. eauto 8.
Qed.

Lemma Matches_Alt (r1 r2 : re) (w rest : jsstring) (caps caps' : captures) :
  Matches (Alt r1 r2) w rest caps caps' ->
  Matches r1 w rest caps caps' \/ Matches r2 w rest caps caps'.
Proof.
  intros M. inversion M; subst; [left | right]; assumption.
Qed.

Lemma Matches_Group (n : nat) (r : re) (w rest : jsstring)
  (caps caps' : captures) :
  Matches (Group n r) w rest caps caps' ->
  exists caps0, caps' = (n, w) :: caps0 /\ Matches r w rest caps caps0.
Proof.
  intros M. inversion M; subst. eauto.
Qed.

Lemma Matches_Chr (p : char -> bool) (w rest : jsstring)
  (caps caps' : captures) :
  Matches (Chr p) w rest caps caps' ->
  exists c, w = [c] /\ p c = true /\ caps' = caps.
Proof.
  intros M. inversion M; subst. eauto.
Qed.

Lemma Matches_Opt (r : re) (w rest : jsstring) (caps caps' : captures) :
  Matches (Opt r) w rest caps caps' ->
  Matches r w rest caps caps' \/ (w = [] /\ caps' = caps).
Proof.
  unfold Opt. intros M. apply Matches_Alt in M. destruct M as [M|M].
  - left. exact M.
  - right. inversion M; subst. auto.
Qed.

Lemma Matches_Eos (w rest : jsstring) (caps caps' : captures) :
  Matches Eos w rest caps caps' -> w = [] /\ rest = [] /\ caps' = caps.
Proof.
  intros M. inversion M; subst. auto.
Qed.

(* ================================================================== *)
(** * Further properties of the instruction parser *)
(* ================================================================== *)

Lemma spanDigits_prefix (ds rest : jsstring) :
  allDigits ds -> noDigitAhead rest -> spanDigits (ds ++ rest) = (ds, rest).
Proof.
  intros Hd Hr. destruct rest as [|c rest].
  - rewrite app_nil_r. apply spanDigits_all, Hd.
  - apply spanDigits_app; assumption.
Qed.

(** [parseInt] reads a leading run of digits and stops at what is not
    one; the hexadecimal prefix needs an [x] after a single [0]. *)
Lemma parseInt_digits_prefix (ds rest : jsstring) :
  ds <> [] -> allDigits ds -> noDigitAhead rest ->
  match rest with
  | [] => True
  | c :: _ => (N.eqb c (ch "x") || N.eqb c (ch "X"))%bool = false
  end ->
  parseInt (ds ++ rest) = Num (inject_Z (digitsValue ds)).
Proof.
  intros Hne Hall Hrest Hx. destruct ds as [|c ds]; [congruence|].
  pose proof Hall as Hall'. inversion Hall' as [|? ? Hc Hds]; subst.
  unfold parseInt.
  assert (Ht : trimStart ((c :: ds) ++ rest) = c :: (ds ++ rest)).
  { simpl. rewrite (digit_not_space c Hc). reflexivity. }
  rewrite Ht. unfold readSign.
  rewrite (digit_not_char c "-" Hc eq_refl), (digit_not_char c "+" Hc eq_refl).
  assert (Hspan : spanDigits (c :: ds ++ rest) = (c :: ds, rest))
    by (apply (spanDigits_prefix (c :: ds) rest); assumption).
  destruct (ds ++ rest) as [|x s2] eqn:E2.
  - rewrite Hspan. reflexivity.
  - assert (Hnx : (N.eqb x (ch "x") || N.eqb x (ch "X"))%bool = false).
    { destruct ds as [|d ds'].
      - simpl in E2. subst rest. exact Hx.
      - simpl in E2. injection E2 as <- _. inversion Hds; subst.
        rewrite (digit_not_char d "x"), (digit_not_char d "X");
          [reflexivity | assumption | reflexivity | assumption | reflexivity]. }
    rewrite Hnx, andb_false_r, Hspan. reflexivity.
Qed.

Lemma lower_eq_upper (c x : char) :
  isUpper x = true -> N.eqb (lowerChar c) (lowerChar x) = true ->
  upperChar c = x.
Proof.
  unfold lowerChar, upperChar, isUpper, isLower, inRange.
  intros Hx. rewrite Hx. apply andb_true_iff in Hx. destruct Hx as [H1 H2].
  apply N.leb_le in H1. apply N.leb_le in H2.
  intros E. apply N.eqb_eq in E.
  destruct (N.leb_spec 65 c), (N.leb_spec c 90), (N.leb_spec 97 c),
    (N.leb_spec c 122); cbn [andb] in *; lia.
Qed.

(** A literal under the [i] flag consumes the word, whatever the case
    of its letters, and captures nothing. *)
Lemma Matches_stri (s : string) :
  s <> EmptyString ->
  forall (w rest : jsstring) (caps caps' : captures),
    Matches (stri s) w rest caps caps' ->
    caps' = caps /\ toLowerCase w = toLowerCase (lit s).
Proof.
  induction s as [|a s IH]; [congruence|]. intros _ w rest caps caps' M.
  destruct s as [|b s'].
  - cbn [stri] in M. unfold chri in M. inversion M; subst.
    split; [reflexivity|]. cbn [toLowerCase map lit].
    match goal with H : N.eqb _ _ = true |- _ => apply N.eqb_eq in H; rewrite H end.
    reflexivity.
  - change (stri (String a (String b s')))
      with (Cat (chri a) (stri (String b s'))) in M.
    inversion M as [| |? ? w1 w2 ? ? caps1 ? M1 M2| | | | | |]; subst.
    unfold chri in M1. inversion M1; subst.
    destruct (IH ltac:(discriminate) _ _ _ _ M2) as [-> Hw].
    split; [reflexivity|].
    change (toLowerCase ([c] ++ w2)) with (lowerChar c :: toLowerCase w2).
    rewrite Hw.
    match goal with H : N.eqb _ _ = true |- _ => apply N.eqb_eq in H; rewrite H end.
    reflexivity.
Qed.

(** One or more characters of a class. *)
Lemma Matches_class_plus (g : bool) (p : char -> bool)
  (w rest : jsstring) (caps caps' : captures) :
  Matches (Plus g (Chr p)) w rest caps caps' ->
  caps' = caps /\ w <> [] /\ Forall (fun c => p c = true) w.
Proof.
  unfold Plus. intros M.
  inversion M as [| |? ? w1 w2 ? ? caps1 ? M1 M2| | | | | |]; subst.
  inversion M1; subst.
  apply Matches_class_star in M2. destruct M2 as [-> Hw].
  split; [reflexivity|]. split; [discriminate|].
  constructor; assumption.
Qed.

(** X12.  A temperature that [extractTemperature] reports was found in
    the text as a run of digits, an optional degree sign and a letter F
    or C of either case: its value is the number the digits spell, and
    its unit is the upper-case letter, [F] or [C] and nothing else. *)
Theorem extractTemperature_shape (s : jsstring) (t : Temperature) :
  extractTemperature s = Some t ->
  exists pre ds deg c post,
    s = pre ++ ds ++ deg ++ c :: post
    /\ ds <> [] /\ allDigits ds
    /\ (deg = [] \/ deg = [degreeSign])
    /\ temp_value t = Num (inject_Z (digitsValue ds))
    /\ temp_unit t = [upperChar c]
    /\ (temp_unit t = lit "F" \/ temp_unit t = lit "C").
Proof.
  unfold extractTemperature.
  destruct (search tempRe s) as [[j caps]|] eqn:E; [|discriminate].
  intros H. injection H as <-. cbn [temp_value temp_unit].
  destruct (search_sound tempRe s j caps E) as (pre & w & post & Es & _ & M).
  unfold tempRe in M.
  inversion M as [| |? ? w1 w23 ? ? caps1 ? M1 M23| | | | | |]; subst.
  inversion M1 as [| | | | | | |? ? ? ? ? caps1' M1'|]; subst.
  apply Matches_class_plus in M1'. destruct M1' as (-> & Hne & Hds).
  inversion M23 as [| |? ? w2 w3 ? ? caps2 ? M2 M3| | | | | |]; subst.
  assert (Hdeg : caps2 = [(1%nat, w1)] /\ (w2 = [] \/ w2 = [degreeSign])).
  { unfold Opt in M2. inversion M2 as [| | |? ? ? ? ? ? Ma|? ? ? ? ? ? Mb| | | |]; subst.
    - inversion Ma; subst. split; [reflexivity|]. right.
      match goal with H : N.eqb _ _ = true |- _ => apply N.eqb_eq in H; rewrite <- H end.
      reflexivity.
    - inversion Mb; subst. split; [reflexivity | left; reflexivity]. }
  destruct Hdeg as [-> Hdeg].
  inversion M3 as [| | | | | | |? ? ? ? ? caps3 M3'|]; subst.
  assert (Hunit : caps3 = [(1%nat, w1)]
                  /\ exists c, w3 = [c]
                       /\ (upperChar c = ch "F" \/ upperChar c = ch "C")).
  { unfold chri in M3'.
    inversion M3' as [| | |? ? ? ? ? ? Ma|? ? ? ? ? ? Mb| | | |]; subst.
    - inversion Ma; subst. split; [reflexivity|]. eexists. split; [reflexivity|].
      left. apply lower_eq_upper; [reflexivity | assumption].
    - inversion Mb; subst. split; [reflexivity|]. eexists. split; [reflexivity|].
      right. apply lower_eq_upper; [reflexivity | assumption]. }
  destruct Hunit as (-> & c & -> & Hc).
  cbn [group Nat.eqb nullish toUpperCase map].
  exists pre, w1, w2, c, post.
  split; [repeat rewrite <- app_assoc; reflexivity|].
  split; [exact Hne|]. split; [exact Hds|]. split; [exact Hdeg|].
  split.
  { rewrite <- (app_nil_r w1) at 1.
    apply parseInt_digits_prefix; [exact Hne | exact Hds | exact I | exact I]. }
  split; [reflexivity|].
  destruct Hc as [-> | ->]; [left | right]; reflexivity.
Qed.

Lemma space_not_x (c : char) :
  isSpace c = true -> (N.eqb c (ch "x") || N.eqb c (ch "X"))%bool = false.
Proof.
  intros H.
  destruct (N.eqb_spec c (ch "x")) as [->|_]; [discriminate H|].
  destruct (N.eqb_spec c (ch "X")) as [->|_]; [discriminate H|].
  reflexivity.
Qed.

Lemma space_not_digit (c : char) : isSpace c = true -> isDigit c = false.
Proof.
  intros H. destruct (isDigit c) eqn:E; [|reflexivity].
  rewrite (digit_not_space c E) in H. discriminate H.
Qed.

(** The optional upper end of a range, [(?:\s*-\s*\d+)?]. *)
Lemma Matches_range (w rest : jsstring) (caps caps' : captures) :
  Matches (Opt (Cat (Star true space)
                  (Cat (chr "-") (Cat (Star true space) (Plus true digit)))))
          w rest caps caps' ->
  caps' = caps
  /\ Forall (fun c => rangeChar c = true) w
  /\ match w with
     | [] => True
     | c :: _ => isDigit c = false
                 /\ (N.eqb c (ch "x") || N.eqb c (ch "X"))%bool = false
     end.
Proof.
  unfold Opt. intros M.
  inversion M as [| | |? ? ? ? ? ? Ma|? ? ? ? ? ? Mb| | | |]; subst.
  - inversion Ma as [| |? ? w1 w2 ? ? caps1 ? M1 M2| | | | | |]; subst.
    apply Matches_class_star in M1. destruct M1 as [-> Hw1].
    inversion M2 as [| |? ? w3 w4 ? ? caps3 ? M3 M4| | | | | |]; subst.
    unfold chr in M3. inversion M3; subst.
    match goal with H : N.eqb _ _ = true |- _ => apply N.eqb_eq in H; subst end.
    inversion M4 as [| |? ? w5 w6 ? ? caps5 ? M5 M6| | | | | |]; subst.
    apply Matches_class_star in M5. destruct M5 as [-> Hw5].
    apply Matches_class_plus in M6. destruct M6 as (-> & _ & Hw6).
    split; [reflexivity|]. split.
    + apply Forall_app. split.
      * eapply Forall_impl; [|exact Hw1]. intros c Hc. cbv beta in Hc.
        unfold space in Hc. unfold rangeChar. rewrite Hc, orb_true_r. reflexivity.
      * constructor; [reflexivity|]. apply Forall_app. split.
        -- eapply Forall_impl; [|exact Hw5]. intros c Hc. cbv beta in Hc.
           unfold rangeChar. rewrite Hc, orb_true_r. reflexivity.
        -- eapply Forall_impl; [|exact Hw6]. intros c Hc. cbv beta in Hc.
           unfold rangeChar. rewrite Hc. reflexivity.
    + destruct w1 as [|c w1]; cbn [app].
      * split; reflexivity.
      * inversion Hw1; subst.
        split; [apply space_not_digit | apply space_not_x]; assumption.
  - inversion Mb; subst. split; [reflexivity|]. split; [constructor | exact I].
Qed.

(** The six unit words, tried in order. *)
Lemma Matches_timeWord (w rest : jsstring) (caps caps' : captures) :
  Matches (Alt (stri "minute")
            (Alt (stri "min")
              (Alt (stri "second")
                (Alt (stri "sec")
                  (Alt (stri "hour") (stri "hr"))))))
          w rest caps caps' ->
  caps' = caps /\ In (toLowerCase w) timeUnits.
Proof.
  intros M.
  repeat (apply Matches_Alt in M; destruct M as [M|M]);
  match type of M with
  | Matches (stri ?s) _ _ _ _ =>
      apply (Matches_stri s ltac:(discriminate)) in M; destruct M as [-> Hw]
  end;
  (split; [reflexivity|]); rewrite Hw; unfold timeUnits; in_list.
Qed.

(** X13.  A duration that [extractTime] reports was found in the text
    as a run of digits, then whitespace or the rest of a range, then a
    unit word of either case: its value is the number the first run of
    digits spells (for a range, the lower end), and its unit is one of
    [minute], [min], [second], [sec], [hour], [hr] in lower case,
    without the plural s. *)
Theorem extractTime_shape (s : jsstring) (d : Duration) :
  extractTime s = Some d ->
  exists pre ds mid word post,
    s = pre ++ ds ++ mid ++ word ++ post
    /\ ds <> [] /\ allDigits ds
    /\ Forall (fun c => rangeChar c = true) mid /\ noDigitAhead mid
    /\ time_value d = Num (inject_Z (digitsValue ds))
    /\ time_unit d = toLowerCase word
    /\ In (time_unit d) timeUnits.
Proof.
  unfold extractTime.
  destruct (search timeRe s) as [[j caps]|] eqn:E; [|discriminate].
  intros H. injection H as <-. cbn [time_value time_unit].
  destruct (search_sound timeRe s j caps E) as (pre & w & post & Es & _ & M).
  unfold timeRe in M.
  apply Matches_Cat in M. destruct M as (w1 & w234 & caps1 & -> & M1 & M234).
  apply Matches_Group in M1. destruct M1 as (caps1' & -> & M1).
  apply Matches_Cat in M1. destruct M1 as (ds & range & capsd & -> & Md & Mr).
  apply Matches_class_plus in Md. destruct Md as (-> & Hne & Hds).
  apply Matches_range in Mr. destruct Mr as (-> & Hrange & Hhead).
  apply Matches_Cat in M234. destruct M234 as (w2 & w34 & caps2 & -> & M2 & M34).
  apply Matches_class_star in M2. destruct M2 as [-> Hw2].
  apply Matches_Cat in M34. destruct M34 as (w3 & w4 & caps3 & -> & M3 & M4).
  apply Matches_Group in M3. destruct M3 as (caps3' & -> & M3).
  apply Matches_timeWord in M3. destruct M3 as [-> Hword].
  assert (Ecaps : caps = [(2%nat, w3); (1%nat, ds ++ range)]).
  { apply Matches_Opt in M4. destruct M4 as [M4|[_ ->]]; [|reflexivity].
    unfold chri in M4. apply Matches_Chr in M4.
    destruct M4 as (c & _ & _ & ->). reflexivity. }
  subst caps.
  cbn [group Nat.eqb nullish].
  exists pre, ds, (range ++ w2), w3, (w4 ++ post).
  split; [rewrite Es; repeat rewrite <- app_assoc; reflexivity|].
  split; [exact Hne|]. split; [exact Hds|].
  split.
  { apply Forall_app. split; [exact Hrange|].
    eapply Forall_impl; [|exact Hw2]. intros c Hc. cbv beta in Hc.
    unfold space in Hc. unfold rangeChar. rewrite Hc, orb_true_r. reflexivity. }
  split.
  { destruct range as [|c range]; cbn [app].
    - destruct w2 as [|c w2]; [exact I|]. inversion Hw2; subst.
      apply space_not_digit. assumption.
    - exact (proj1 Hhead). }
  split.
  { apply parseInt_digits_prefix; [exact Hne | exact Hds | |].
    - destruct range; [exact I | exact (proj1 Hhead)].
    - destruct range; [exact I | exact (proj2 Hhead)]. }
  split; [reflexivity | exact Hword].
Qed.

Lemma extractTemperature_shape_witness :
  exists pre ds deg c post,
    lit "Bake at 350F" = pre ++ ds ++ deg ++ c :: post
    /\ ds <> [] /\ allDigits ds
    /\ (deg = [] \/ deg = [degreeSign])
    /\ Num 350 = Num (inject_Z (digitsValue ds))
    /\ lit "F" = [upperChar c]
    /\ (lit "F" = lit "F" \/ lit "F" = lit "C").
Proof.
  apply (extractTemperature_shape (lit "Bake at 350F")
           {| temp_value := Num 350; temp_unit := lit "F" |}).
  reflexivity.
Defined.

Lemma extractTime_shape_witness :
  exists pre ds mid word post,
    lit "Rest 10-15 Minutes" = pre ++ ds ++ mid ++ word ++ post
    /\ ds <> [] /\ allDigits ds
    /\ Forall (fun c => rangeChar c = true) mid /\ noDigitAhead mid
    /\ Num 10 = Num (inject_Z (digitsValue ds))
    /\ lit "minute" = toLowerCase word
    /\ In (lit "minute") timeUnits.
Proof.
  apply (extractTime_shape (lit "Rest 10-15 Minutes")
           {| time_value := Num 10; time_unit := lit "minute" |}).
  reflexivity.
Defined.

Lemma lineRecords_Some (line : jsstring) (r : ParsedInstruction) :
  In r (lineRecords line) ->
  exists ds ws,
    trim line = ds ++ ch "." :: ws ++ text r
    /\ ds <> [] /\ allDigits ds
    /\ ws <> [] /\ Forall (fun c => isSpace c = true) ws
    /\ text r <> [] /\ Forall (fun c => isLineTerminator c = false) (text r)
    /\ stepNumber r = Num (inject_Z (digitsValue ds))
    /\ temperature r = extractTemperature (text r)
    /\ time r = extractTime (text r).
Proof.
  unfold lineRecords, parseInstructions_step.
  destruct (skippedLine line); [intros []|].
  destruct (matchStart stepRe (trim line)) as [[rest caps]|] eqn:E;
    [|intros []].
  cbn [fst app]. intros [<-|[]].
  cbn [text stepNumber temperature time].
  destruct (matchStart_sound stepRe _ _ _ E) as (w & Et & M).
  unfold stepRe in M.
  apply Matches_Cat in M. destruct M as (ds & w2 & caps1 & -> & M1 & M2).
  apply Matches_Group in M1. destruct M1 as (caps1' & -> & M1).
  apply Matches_class_plus in M1. destruct M1 as (-> & Hne & Hds).
  apply Matches_Cat in M2. destruct M2 as (p & w3 & caps2 & -> & Mp & M3).
  unfold chr in Mp. apply Matches_Chr in Mp. destruct Mp as (c & -> & Hc & ->).
  apply N.eqb_eq in Hc. subst c.
  apply Matches_Cat in M3. destruct M3 as (ws & w4 & caps3 & -> & Mw & M4).
  apply Matches_class_plus in Mw. destruct Mw as (-> & Hwne & Hws).
  apply Matches_Cat in M4. destruct M4 as (body & w5 & caps4 & -> & Mb & Me).
  apply Matches_Group in Mb. destruct Mb as (caps4' & -> & Mb).
  apply Matches_class_plus in Mb. destruct Mb as (-> & Hbne & Hbody).
  apply Matches_Eos in Me. destruct Me as (-> & -> & ->).
  cbn [group Nat.eqb nullish].
  exists ds, ws.
  split; [rewrite Et; repeat rewrite <- app_assoc; rewrite !app_nil_r; reflexivity|].
  split; [exact Hne|]. split; [exact Hds|].
  split; [exact Hwne|]. split; [exact Hws|].
  split; [exact Hbne|].
  split; [apply negb_true_Forall, Hbody|].
  split; [|split; reflexivity].
  rewrite <- (app_nil_r ds) at 1.
  apply parseInt_digits_prefix; [exact Hne | exact Hds | exact I | exact I].
Qed.

(** X14.  Every record of [parseInstructions] comes from one line of
    the text which, trimmed, is digits, a period, whitespace and the
    instruction text: the step number is the number the digits spell,
    the instruction text is not empty and has no line terminator, and
    temperature and time are what the two extractors find in the
    instruction text. *)
Theorem parseInstructions_records (input : jsstring) (r : ParsedInstruction) :
  In r (parseInstructions input) ->
  exists line ds ws,
    In line (splitChar 10%N input)
    /\ trim line = ds ++ ch "." :: ws ++ text r
    /\ ds <> [] /\ allDigits ds
    /\ ws <> [] /\ Forall (fun c => isSpace c = true) ws
    /\ text r <> [] /\ Forall (fun c => isLineTerminator c = false) (text r)
    /\ stepNumber r = Num (inject_Z (digitsValue ds))
    /\ temperature r = extractTemperature (text r)
    /\ time r = extractTime (text r).
Proof.
  unfold parseInstructions. rewrite parseInstructions_fold. cbn [fst app].
  intros H. apply in_flat_map in H. destruct H as (line & Hl & Hr).
  destruct (lineRecords_Some line r Hr) as (ds & ws & H).
  exists line, ds, ws. split; [exact Hl | exact H].
Qed.

Lemma parseInstructions_records_witness :
  exists line ds ws,
    In line (splitChar 10%N (lit "1. Mix well"))
    /\ trim line = ds ++ ch "." :: ws ++ lit "Mix well"
    /\ ds <> [] /\ allDigits ds
    /\ ws <> [] /\ Forall (fun c => isSpace c = true) ws
    /\ lit "Mix well" <> []
    /\ Forall (fun c => isLineTerminator c = false) (lit "Mix well")
    /\ Num 1 = Num (inject_Z (digitsValue ds))
    /\ None = extractTemperature (lit "Mix well")
    /\ None = extractTime (lit "Mix well").
Proof.
  apply (parseInstructions_records (lit "1. Mix well")
           {| stepNumber := Num 1; text := lit "Mix well";
              temperature := None; time := None |}).
  vm_compute. left. reflexivity.
Defined.

(* ================================================================== *)
(** * Notes, and scaling what was parsed *)
(* ================================================================== *)

Lemma notesSplit_Some (cleaned n : jsstring) :
  fst (notesSplit cleaned) = Some n ->
  n <> []
  /\ Forall (fun c => N.eqb c (ch ")") = false) n
  /\ exists pre, cleaned = pre ++ ch "(" :: n ++ [ch ")"].
Proof.
  unfold notesSplit.
  destruct (search notesRe cleaned) as [[j caps]|] eqn:E; [|discriminate].
  cbn [fst].
  destruct (search_sound notesRe cleaned j caps E) as (pre & w & post & Es & _ & M).
  unfold notesRe in M.
  apply Matches_Cat in M. destruct M as (o & w2 & caps1 & -> & Mo & M2).
  unfold chr in Mo. apply Matches_Chr in Mo. destruct Mo as (c & -> & Hc & ->).
  apply N.eqb_eq in Hc. subst c.
  apply Matches_Cat in M2. destruct M2 as (body & w3 & caps2 & -> & Mb & M3).
  apply Matches_Group in Mb. destruct Mb as (caps2' & -> & Mb).
  apply Matches_class_plus in Mb. destruct Mb as (-> & Hne & Hbody).
  apply Matches_Cat in M3. destruct M3 as (cl & w4 & caps3 & -> & Mc & Me).
  unfold chr in Mc. apply Matches_Chr in Mc. destruct Mc as (c & -> & Hc & ->).
  apply N.eqb_eq in Hc. subst c.
  apply Matches_Eos in Me. destruct Me as (-> & -> & ->).
  cbn [group Nat.eqb]. intros H. injection H as <-.
  split; [exact Hne|]. split; [apply negb_true_Forall, Hbody|].
  exists pre. rewrite Es. repeat rewrite <- app_assoc.
  rewrite !app_nil_r. reflexivity.
Qed.

(** X15.  Notes on a returned ingredient stand in parentheses at the
    very end of the cleaned line: they are not empty and hold no
    closing parenthesis. *)
Theorem parseIngredientLine_notes (line : jsstring) (p : ParsedIngredient)
  (n : jsstring) :
  parseIngredientLine line = Some p ->
  notes p = Some n ->
  n <> []
  /\ Forall (fun c => N.eqb c (ch ")") = false) n
  /\ exists pre, cleanedLine line = pre ++ ch "(" :: n ++ [ch ")"].
Proof.
  intros H Hn.
  destruct (parseIngredientLine_Some line p H)
    as (rest & caps & u & _ & _ & _ & Ep).
  rewrite Ep in Hn. cbn [notes] in Hn.
  apply notesSplit_Some, Hn.
Qed.

Lemma parseIngredientLine_notes_witness :
  lit "sifted" <> []
  /\ Forall (fun c => N.eqb c (ch ")") = false) (lit "sifted")
  /\ exists pre,
       cleanedLine (lit "- 1.5 Tbsp sugar (sifted)")
       = pre ++ ch "(" :: lit "sifted" ++ [ch ")"].
Proof.
  apply (parseIngredientLine_notes (lit "- 1.5 Tbsp sugar (sifted)")
           {| original := lit "- 1.5 Tbsp sugar (sifted)"; quantity := 1.5;
              unit := lit "tbsp"; unitType := volume;
              ingredient := lit "sugar"; notes := Some (lit "sifted") |}
           (lit "sifted"));
    reflexivity.
Defined.

(** X16.  Scaling to the number of servings the recipe is written for
    changes nothing: every scaled quantity is the parsed quantity, and
    what is displayed is the parsed quantity formatted. *)
Theorem scaleRecipe_same_servings (ingredients : list ParsedIngredient)
  (servings : Q) :
  ~ servings == 0 ->
  map parsed (scaleRecipe ingredients servings servings) = ingredients
  /\ Forall (fun s => scaledQuantity s == quantity (parsed s)
                      /\ scaledUnit s = unit (parsed s)
                      /\ displayQuantity s = formatQuantity (quantity (parsed s)))
            (scaleRecipe ingredients servings servings).
Proof.
  intros Hs. unfold scaleRecipe. cbv zeta. split.
  - rewrite map_map. cbn [parsed]. apply map_id.
  - apply Forall_map, Forall_forall. intros p _.
    cbn [parsed scaledQuantity scaledUnit displayQuantity].
    assert (E : quantity p * (servings / servings) == quantity p)
      by (field; exact Hs).
    split; [exact E|]. split; [reflexivity|].
    apply formatQuantity_compat, E.
Qed.

Lemma scaleRecipe_same_servings_witness :
  map parsed (scaleRecipe [flourExample] 24 24) = [flourExample]
  /\ Forall (fun s => scaledQuantity s == quantity (parsed s)
                      /\ scaledUnit s = unit (parsed s)
                      /\ displayQuantity s = formatQuantity (quantity (parsed s)))
            (scaleRecipe [flourExample] 24 24).
Proof.
  apply (scaleRecipe_same_servings [flourExample] 24).
  intros H. vm_compute in H. lia.
Defined.

Lemma lineIngredients_length (lines : list jsstring) :
  (List.length (flat_map lineIngredients lines) <= List.length lines)%nat.
Proof.
  induction lines as [|line lines IH]; cbn [flat_map List.length]; [lia|].
  rewrite length_app. unfold lineIngredients at 1.
  destruct (parseIngredientLine line); cbn [List.length]; lia.
Qed.

(** X17.  Parsing a text and scaling the result, as the recipe scaler
    does: with positive numbers of servings every scaled quantity is
    above zero, and there are never more entries than the text has
    lines. *)
Theorem scaleRecipe_parseIngredients (input : jsstring)
  (originalServings desiredServings : Q) :
  0 < originalServings -> 0 < desiredServings ->
  Forall (fun s => 0 < scaledQuantity s)
         (scaleRecipe (parseIngredients input) originalServings desiredServings)
  /\ (List.length (scaleRecipe (parseIngredients input)
                     originalServings desiredServings)
      <= List.length (splitChar 10%N input))%nat.
Proof.
  intros Ho Hd. unfold scaleRecipe. cbv zeta.
  unfold parseIngredients. rewrite parseIngredients_fold. cbn [app].
  split.
  - apply Forall_map, Forall_forall. intros p Hp. cbn [scaledQuantity].
    apply in_flat_map in Hp. destruct Hp as (line & _ & Hp).
    unfold lineIngredients in Hp.
    destruct (parseIngredientLine line) as [p'|] eqn:E; [|destruct Hp].
    destruct Hp as [<-|[]].
    destruct (parseIngredientLine_Some line p' E)
      as (rest & caps & u & _ & Hq & _).
    pose proof (parseQuantity_loop_positive _ _ _ Hq) as Hpos.
    apply Qmult_lt_0_compat; [exact Hpos|].
    apply Qlt_shift_div_l; [exact Ho|]. rewrite Qmult_0_l. exact Hd.
  - rewrite length_map. apply lineIngredients_length.
Qed.

Lemma scaleRecipe_parseIngredients_witness :
  Forall (fun s => 0 < scaledQuantity s)
         (scaleRecipe (parseIngredients (lit "2 cups flour")) 24 12)
  /\ (List.length (scaleRecipe (parseIngredients (lit "2 cups flour")) 24 12)
      <= List.length (splitChar 10%N (lit "2 cups flour")))%nat.
Proof.
  apply (scaleRecipe_parseIngredients (lit "2 cups flour") 24 12); reflexivity.
Defined.

(* ================================================================== *)
(** * Conversion as a change of scale *)
(* ================================================================== *)




(* ================================================================== *)
(** * Cooking fractions survive formatting *)
(* ================================================================== *)

Lemma mod1_nonneg (v : Q) : 0 <= v -> mod1 v = remainderOf v.
Proof.
  intros Hv. unfold mod1, remainderOf, trunc, floor.
  replace (Qle_bool 0 v) with true; [reflexivity|].
  symmetry. apply Qle_bool_iff, Hv.
Qed.

(** A positive quantity that is not whole and whose fractional part is
    a fraction with a denominator up to 16. *)
Lemma parse_format_fraction (v : Q) (n d : Z) :
  0 < v -> Qeq_bool (mod1 v) 0 = false ->
  (1 <= d <= 16)%Z ->
  remainderOf v == inject_Z n / inject_Z d ->
  exists q, parseQuantity (formatQuantity v) = Some q /\ q == v.
Proof.
  intros Hpos Hw Hd Hr.
  pose proof (remainderOf_nonneg v) as H0.
  pose proof (remainderOf_lt_1 v) as H1.
  assert (Hfl : (0 <= floor v)%Z).
  { unfold floor. change 0%Z with (Qfloor 0). apply Qfloor_resp_le. lra. }
  assert (Hv : v == inject_Z (floor v) + remainderOf v)
    by (unfold remainderOf; ring).
  pose proof (search_round_up _ H0 H1) as Hup.
  pose proof (search_proper _ H0 H1) as Hpr.
  rewrite (formatQuantity_nonwhole v _ Hw eq_refl).
  set (b := closestFraction_search (remainderOf v)) in *. clearbody b.
  set (r := remainderOf v) in *. clearbody r.
  set (w := floor v) in *. clearbody w.
  assert (Hzero : Qabs (r - inject_Z n / inject_Z d) == 0).
  { rewrite <- Hr. setoid_replace (r - r) with 0 by ring. reflexivity. }
  destruct (Z.eqb_spec (bestNumerator b) (bestDenominator b)) as [E|E].
  - exfalso. destruct (Hup E) as (_ & _ & Hmin).
    specialize (Hmin n d Hd). rewrite Hzero in Hmin. lra.
  - destruct (Hpr E) as (Hn & Hd' & _ & Herr & Hmin).
    specialize (Hmin n d Hd). rewrite Hzero in Hmin.
    assert (Herr0 : bestError b == 0).
    { apply Qle_antisym; [exact Hmin|]. rewrite Herr. apply Qabs_nonneg. }
    replace (Qltb (bestError b) 0.01) with true
      by (symmetry; apply Qltb_lt; rewrite Herr0; reflexivity).
    destruct (parseQuantity_renderFraction w (bestNumerator b)
                (bestDenominator b) ltac:(lia) ltac:(lia)) as (q & Eq & Pq).
    assert (Hwq : (if (0 <? w)%Z then inject_Z w else 0) == inject_Z w).
    { destruct (Z.ltb_spec 0 w); [reflexivity|].
      replace w with 0%Z by lia. reflexivity. }
    rewrite Hwq in Eq.
    set (f := inject_Z (bestNumerator b) / inject_Z (bestDenominator b)) in *.
    clearbody f.
    assert (Hf : f == r).
    { rewrite Herr0 in Herr. symmetry in Herr.
      assert (Hle : Qabs (f - r) <= 0) by (rewrite Herr; apply Qle_refl).
      apply Qabs_Qle_condition in Hle. destruct Hle as [Hl Hh]. lra. }
    exists q. split; [|lra].
    rewrite Pq. replace (Qltb 0 q) with true; [reflexivity|].
    symmetry. apply Qltb_lt. lra.
Qed.

(** A positive quantity that is whole, in any representation. *)
Lemma parse_format_whole (v : Q) :
  0 < v -> Qeq_bool (mod1 v) 0 = true ->
  exists q, parseQuantity (formatQuantity v) = Some q /\ q == v.
Proof.
  intros Hpos Hw. unfold formatQuantity. rewrite Hw.
  apply Qeq_bool_iff in Hw.
  rewrite (mod1_nonneg v (Qlt_le_weak _ _ Hpos)) in Hw. unfold remainderOf in Hw.
  assert (Ht : trunc v = floor v).
  { unfold trunc, floor. replace (Qle_bool 0 v) with true; [reflexivity|].
    symmetry. apply Qle_bool_iff, Qlt_le_weak, Hpos. }
  rewrite Ht.
  assert (Hv : v == inject_Z (floor v)) by lra.
  assert (Hfl : (0 < floor v)%Z).
  { rewrite Zlt_Qlt. change (inject_Z 0) with 0. lra. }
  set (w := floor v) in *. clearbody w.
  rewrite (intToString_nonneg w) by lia.
  destruct (parseQuantity_digits _ (digitsOf_nonempty (Z.to_N w))
              (digitsOf_allDigits (Z.to_N w))) as [q [Eq Hq]].
  rewrite digitsValue_digitsOf, Z2N.id in Eq by lia.
  exists q. split; [|lra].
  rewrite Hq. replace (Qltb 0 q) with true; [reflexivity|].
  symmetry. apply Qltb_lt. lra.
Qed.

(** X19.  A positive quantity whose fractional part is zero or a
    fraction with a denominator up to 16 is formatted as a whole
    number, a fraction or a mixed number that [parseQuantity] reads back
    as the same quantity. *)
Theorem parseQuantity_formatQuantity_exact (v : Q) (n d : Z) :
  0 < v ->
  (1 <= d <= 16)%Z ->
  remainderOf v == inject_Z n / inject_Z d ->
  exists q, parseQuantity (formatQuantity v) = Some q /\ q == v.
Proof.
  intros Hpos Hd Hr. destruct (Qeq_bool (mod1 v) 0) eqn:Hw.
  - apply parse_format_whole; assumption.
  - apply (parse_format_fraction v n d); assumption.
Qed.

Lemma parseQuantity_formatQuantity_exact_witness :
  exists q, parseQuantity (formatQuantity 2.25) = Some q /\ q == 2.25.
Proof.
  apply (parseQuantity_formatQuantity_exact 2.25 1 4);
    [reflexivity | lia | reflexivity].
Defined.
